(** * go-tsz: Gorilla time-series compression (tsz.go)

    A shallow embedding of [Series] (the encoder) and [Iter] (the decoder)
    of tsz.go, together with the bit stream they write to and read from.

    Data representation.
    - [uint32] and [uint64] values are integers of [Z] kept in range by an
      explicit wrap-around ([wrap32], [wrap64]); [int32] and [int] are the
      signed readings ([int32], [int64]).
    - A [float64] is represented by its IEEE-754 bit pattern, a [uint64].
      tsz.go touches sample values only through [math.Float64bits] and
      [math.Float64frombits], which are inverse reinterpretations of the
      same 64 bits, so both are the identity on this representation and
      equality of values below is equality of bit patterns (NaN payloads
      and the sign of zero included).
    - A byte is an integer in [0, 256); a bit is a [bool]. *)

From Stdlib Require Import ZArith List Bool Lia.
Import ListNotations.
Local Open Scope Z_scope.

(** ** Machine arithmetic *)

Definition wrap32 (x : Z) : Z := x mod 2 ^ 32.
Definition wrap64 (x : Z) : Z := x mod 2 ^ 64.
Definition int32 (x : Z) : Z := (x + 2 ^ 31) mod 2 ^ 32 - 2 ^ 31.
Definition int64 (x : Z) : Z := (x + 2 ^ 63) mod 2 ^ 64 - 2 ^ 63.

(** Go shifts of a [uint64] by a [uint64] count: a count of 64 or more
    gives 0. *)
Definition shl64 (x n : Z) : Z :=
  if 64 <=? n then 0 else wrap64 (Z.shiftl x n).
Definition shr64 (x n : Z) : Z :=
  if 64 <=? n then 0 else Z.shiftr x n.

Definition u32 (x : Z) : Prop := 0 <= x < 2 ^ 32.
Definition u64 (x : Z) : Prop := 0 <= x < 2 ^ 64.

(** [^uint64(0)], the encoder's "no window yet" mark. *)
Definition no_window : Z := 2 ^ 64 - 1.

(** ** Bit lists *)

Definition Zero : bool := false.
Definition One : bool := true.

(** The low [n] bits of [u], most significant first. *)
Fixpoint low_bits (n : nat) (u : Z) : list bool :=
  match n with
  | O => []
  | S k => Z.testbit u (Z.of_nat k) :: low_bits k u
  end.

(** The number a bit list spells, most significant bit first, on top of
    the bits already accumulated in [acc]. *)
Fixpoint bits_value (acc : Z) (bs : list bool) : Z :=
  match bs with
  | [] => acc
  | b :: bs' => bits_value (2 * acc + Z.b2z b) bs'
  end.

Definition byte_of_bits (bs : list bool) : Z := bits_value 0 bs.
Definition bits_of_byte (b : Z) : list bool := low_bits 8 b.

Fixpoint bits_of_bytes (bs : list Z) : list bool :=
  match bs with
  | [] => []
  | b :: bs' => bits_of_byte b ++ bits_of_bytes bs'
  end.

(** ** count-leading-zeros and count-trailing-zeros *)

(** Modelled from the spec: [bits.Clz] and [bits.Ctz] of the imported
    package github.com/dgryski/go-bits, which is not among the sources; the
    spec (4.3) reads them as the number of leading, respectively trailing,
    zero bits of a 64-bit word, 64 for the word 0. *)
Definition Clz (x : Z) : Z :=
  if x =? 0 then 64 else 63 - Z.log2 x.

(** Modelled from the spec: the scan behind [bits.Ctz], counting zero bits
    from the least significant end, at most [n] of them. *)
Fixpoint ctz_scan (n : nat) (x : Z) : Z :=
  match n with
  | O => 0
  | S k => if Z.odd x then 0 else 1 + ctz_scan k (x / 2)
  end.

(** Modelled from the spec: [bits.Ctz] of go-bits, the number of trailing
    zero bits of a 64-bit word, 64 for the word 0. *)
Definition Ctz (x : Z) : Z :=
  if x =? 0 then 64 else ctz_scan 64 x.

(** ** The bit stream *)

(** Modelled from the spec: the bit writer and bit reader of the imported
    package github.com/dgryski/go-bitstream, which is not among the sources.
    After the spec (4.1): bits are appended most significant first within
    each byte, a byte reaches the underlying buffer when its eighth bit is
    written, [Flush] completes a pending partial byte with the pad bit and
    does nothing otherwise, and a read fails when the byte sequence is
    exhausted. *)
Record BitWriter := mkWriter {
  w_out : list Z;       (* the bytes.Buffer written to: complete bytes *)
  w_pend : list bool    (* bits of the pending partial byte, fewer than 8 *)
}.

(** Modelled from the spec: [bitstream.NewWriter], a writer on a buffer
    with no bit pending. *)
Definition NewWriter (buf : list Z) : BitWriter := mkWriter buf [].

(** Modelled from the spec: [WriteBit] appends one bit; the eighth bit of
    a byte sends the byte to the buffer. *)
Definition WriteBit (w : BitWriter) (b : bool) : BitWriter :=
  let p := w_pend w ++ [b] in
  if (length p =? 8)%nat
  then mkWriter (w_out w ++ [byte_of_bits p]) []
  else mkWriter (w_out w) p.

(** Modelled from the spec: a run of [WriteBit], first bit first. *)
Definition write_list (w : BitWriter) (bs : list bool) : BitWriter :=
  fold_left WriteBit bs w.

(** Modelled from the spec: [WriteBits u nbits] appends the low [nbits]
    bits of [u], most significant first; nothing for [nbits <= 0]. *)
Definition WriteBits (w : BitWriter) (u : Z) (nbits : Z) : BitWriter :=
  write_list w (low_bits (Z.to_nat nbits) u).

(** Modelled from the spec: [Flush] completes a pending partial byte with
    the pad bit [b] and does nothing when no bit is pending. *)
Definition Flush (w : BitWriter) (b : bool) : BitWriter :=
  write_list w (repeat b ((8 - length (w_pend w) mod 8) mod 8)).

(** Modelled from the spec: the one error of the reader, a read past the
    end of the bytes. *)
Inductive error := UnexpectedEnd.

(** Modelled from the spec: the reader of go-bitstream, as the bits not
    yet consumed. A read that fails has used up what was left; [Iter] never
    reads again after a failure. *)
Definition BitReader := list bool.

(** Modelled from the spec: [bitstream.NewReader] on a byte sequence. *)
Definition NewReader (b : list Z) : BitReader := bits_of_bytes b.

(** Modelled from the spec: [ReadBit] takes the next bit and fails when
    none is left. *)
Definition ReadBit (r : BitReader) : (error + bool) * BitReader :=
  match r with
  | [] => (inl UnexpectedEnd, [])
  | b :: r' => (inr b, r')
  end.

(** Modelled from the spec: [n] bits read one after the other into the
    low end of [acc]; the first failure stops the read. *)
Fixpoint read_n (n : nat) (acc : Z) (r : BitReader) : (error + Z) * BitReader :=
  match n with
  | O => (inr acc, r)
  | S k =>
      match ReadBit r with
      | (inl e, r') => (inl e, r')
      | (inr b, r') => read_n k (2 * acc + Z.b2z b) r'
      end
  end.

(** Modelled from the spec: [ReadBits nbits] reads [nbits] bits, most
    significant first, into the low bits of the result and fails on a short
    read. *)
Definition ReadBits (r : BitReader) (nbits : Z) : (error + Z) * BitReader :=
  read_n (Z.to_nat nbits) 0 r.

(** ** The encoder: [Series] *)

(** [s_bw] stands for both [buf] and [bw] of the Go struct: the writer was
    created on [&s.buf], so its [w_out] is the contents of [s.buf]. *)
Record Series := mkSeries {
  s_t0 : Z;
  s_tDelta : Z;
  s_t : Z;
  s_val : Z;
  s_leading : Z;
  s_trailing : Z;
  s_bw : BitWriter;
  s_finished : bool
}.

Definition New (t0 : Z) : Series :=
  mkSeries t0 0 0 0 no_window 0
           (WriteBits (NewWriter []) t0 32)   (* block header *)
           false.

Definition Bytes (s : Series) : list Z := w_out (s_bw s).

Definition Finish (s : Series) : Series :=
  if negb (s_finished s) then
    (* write an end-of-stream record *)
    let w := WriteBits (s_bw s) 15 4 in
    let w := WriteBits w 4294967295 32 in
    let w := WriteBit w Zero in
    let w := Flush w Zero in
    mkSeries (s_t0 s) (s_tDelta s) (s_t s) (s_val s)
             (s_leading s) (s_trailing s) w true
  else s.

(** The delta-of-delta record of [Push]. *)
Definition write_dod (w : BitWriter) (dod : Z) : BitWriter :=
  if dod =? 0 then WriteBit w Zero
  else if (-63 <=? dod) && (dod <=? 64) then
    WriteBits (WriteBits w 2 2) (wrap64 dod) 7
  else if (-255 <=? dod) && (dod <=? 256) then
    WriteBits (WriteBits w 6 3) (wrap64 dod) 9
  else if (-2047 <=? dod) && (dod <=? 2048) then
    WriteBits (WriteBits w 14 4) (wrap64 dod) 12
  else
    WriteBits (WriteBits w 15 4) (wrap64 dod) 32.

(** The value record of [Push], for the XOR [vDelta] and the current
    window: the writer and the window afterwards. *)
Definition write_xor (w : BitWriter) (s_leading s_trailing vDelta : Z)
  : BitWriter * Z * Z :=
  if vDelta =? 0 then (WriteBit w Zero, s_leading, s_trailing)
  else
    let w := WriteBit w One in
    let leading := Clz vDelta in
    let trailing := Ctz vDelta in
    (* check if it is cheaper to reset the leading/trailing bits instead *)
    if negb (s_leading =? no_window)
       && (s_leading <=? leading) && (s_trailing <=? trailing)
    then
      let w := WriteBit w Zero in
      (WriteBits w (shr64 vDelta s_trailing)
                 (int64 (64 - int64 s_leading - int64 s_trailing)),
       s_leading, s_trailing)
    else
      let w := WriteBit w One in
      let w := WriteBits w leading 5 in
      let sigbits := wrap64 (64 - leading - trailing) in
      let w := WriteBits w sigbits 6 in
      (WriteBits w (shr64 vDelta trailing) (int64 sigbits),
       leading, trailing).

Definition Push (s : Series) (t v : Z) : Series :=
  if s_t s =? 0 then
    (* first point *)
    let tDelta := wrap32 (t - s_t0 s) in
    let w := WriteBits (s_bw s) tDelta 14 in
    let w := WriteBits w v 64 in
    mkSeries (s_t0 s) tDelta t v (s_leading s) (s_trailing s) w (s_finished s)
  else
    let tDelta := wrap32 (t - s_t s) in
    let dod := int32 (tDelta - s_tDelta s) in
    let w := write_dod (s_bw s) dod in
    let vDelta := Z.lxor v (s_val s) in
    let '(w, leading, trailing) :=
      write_xor w (s_leading s) (s_trailing s) vDelta in
    mkSeries (s_t0 s) tDelta t v leading trailing w (s_finished s).

(** ** The decoder: [Iter] *)

Record Iter := mkIter {
  it_t0 : Z;
  it_tDelta : Z;
  it_t : Z;
  it_val : Z;
  it_leading : Z;
  it_trailing : Z;
  it_br : BitReader;
  it_b : list Z;
  it_finished : bool;
  it_err : option error
}.

(** Field assignments. *)
Definition set_br (it : Iter) (r : BitReader) : Iter :=
  mkIter (it_t0 it) (it_tDelta it) (it_t it) (it_val it) (it_leading it)
         (it_trailing it) r (it_b it) (it_finished it) (it_err it).
Definition set_err (it : Iter) (e : error) : Iter :=
  mkIter (it_t0 it) (it_tDelta it) (it_t it) (it_val it) (it_leading it)
         (it_trailing it) (it_br it) (it_b it) (it_finished it) (Some e).
Definition set_finished (it : Iter) : Iter :=
  mkIter (it_t0 it) (it_tDelta it) (it_t it) (it_val it) (it_leading it)
         (it_trailing it) (it_br it) (it_b it) true (it_err it).
Definition set_time (it : Iter) (tDelta t : Z) : Iter :=
  mkIter (it_t0 it) tDelta t (it_val it) (it_leading it)
         (it_trailing it) (it_br it) (it_b it) (it_finished it) (it_err it).
Definition set_val (it : Iter) (v : Z) : Iter :=
  mkIter (it_t0 it) (it_tDelta it) (it_t it) v (it_leading it)
         (it_trailing it) (it_br it) (it_b it) (it_finished it) (it_err it).
Definition set_leading (it : Iter) (l : Z) : Iter :=
  mkIter (it_t0 it) (it_tDelta it) (it_t it) (it_val it) l
         (it_trailing it) (it_br it) (it_b it) (it_finished it) (it_err it).
Definition set_trailing (it : Iter) (tr : Z) : Iter :=
  mkIter (it_t0 it) (it_tDelta it) (it_t it) (it_val it) (it_leading it)
         tr (it_br it) (it_b it) (it_finished it) (it_err it).

(** A failed read: [it.err = err; return false]. *)
Definition fail (it : Iter) (r : BitReader) (e : error) : bool * Iter :=
  (false, set_err (set_br it r) e).

Definition NewIterator (b : list Z) : error + Iter :=
  match ReadBits (NewReader b) 32 with
  | (inl e, _) => inl e
  | (inr t0, r) => inr (mkIter (wrap32 t0) 0 0 0 0 0 r b false None)
  end.

Definition Series_Iter (s : Series) : option Iter :=
  match NewIterator (Bytes s) with
  | inl _ => None
  | inr it => Some it
  end.

(** The prefix loop of [Next]: up to [n] more bits, stopping after the
    first zero; [d] is a [byte]. *)
Fixpoint read_prefix (n : nat) (d : Z) (r : BitReader)
  : (error + Z) * BitReader :=
  match n with
  | O => (inr d, r)
  | S k =>
      let d := (Z.shiftl d 1) mod 256 in
      match ReadBit r with
      | (inl e, r') => (inl e, r')
      | (inr bit, r') =>
          if negb bit then (inr d, r') else read_prefix k (Z.lor d 1) r'
      end
  end.

(** The value part of [Next], after the timestamp has been updated. *)
Definition read_value (it : Iter) : bool * Iter :=
  match ReadBit (it_br it) with
  | (inl e, r) => fail it r e
  | (inr bit, r) =>
      let it := set_br it r in
      if negb bit then (true, it)
      else
        match ReadBit r with
        | (inl e, r) => fail it r e
        | (inr bit, r) =>
            let it := set_br it r in
            let window :=
              if negb bit then inr it   (* reuse leading/trailing zero bits *)
              else
                match ReadBits r 5 with
                | (inl e, r) => inl (fail it r e)
                | (inr bits, r) =>
                    let it := set_leading (set_br it r) bits in
                    match ReadBits r 6 with
                    | (inl e, r) => inl (fail it r e)
                    | (inr mbits, r) =>
                        inr (set_trailing (set_br it r)
                               (wrap64 (64 - it_leading it - mbits)))
                    end
                end in
            match window with
            | inl failed => failed
            | inr it =>
                let mbits :=
                  int64 (wrap64 (64 - it_leading it - it_trailing it)) in
                match ReadBits (it_br it) mbits with
                | (inl e, r) => fail it r e
                | (inr bits, r) =>
                    let vbits := Z.lxor (it_val it)
                                        (shl64 bits (it_trailing it)) in
                    (true, set_val (set_br it r) vbits)
                end
            end
        end
  end.

(** The timestamp update of [Next], once [dod] is known. *)
Definition advance (it : Iter) (dod : Z) : bool * Iter :=
  let tDelta := wrap32 (it_tDelta it + wrap32 dod) in
  read_value (set_time it tDelta (wrap32 (it_t it + tDelta))).

Definition Next (it : Iter) : bool * Iter :=
  if (match it_err it with Some _ => true | None => false end)
     || it_finished it
  then (false, it)
  else if it_t it =? 0 then
    (* read first t and v *)
    match ReadBits (it_br it) 14 with
    | (inl e, r) => fail it r e
    | (inr tDelta, r) =>
        let it := set_time (set_br it r) (wrap32 tDelta)
                           (wrap32 (it_t0 it + wrap32 tDelta)) in
        match ReadBits r 64 with
        | (inl e, r) => fail it r e
        | (inr v, r) => (true, set_val (set_br it r) v)
        end
    end
  else
    (* read delta-of-delta *)
    match read_prefix 4 0 (it_br it) with
    | (inl e, r) => fail it r e
    | (inr d, r) =>
        let it := set_br it r in
        let sz := if d =? 2 then 7 else if d =? 6 then 9
                  else if d =? 14 then 12 else 0 in
        if d =? 15 then
          match ReadBits r 32 with
          | (inl e, r) => fail it r e
          | (inr bits, r) =>
              let it := set_br it r in
              (* end of stream *)
              if bits =? 4294967295 then (false, set_finished it)
              else advance it (int32 bits)
          end
        else if negb (sz =? 0) then
          match ReadBits r sz with
          | (inl e, r) => fail it r e
          | (inr bits, r) =>
              let it := set_br it r in
              let bits := if bits >? Z.shiftl 1 (sz - 1)
                          then wrap64 (bits - Z.shiftl 1 sz) else bits in
              advance it (int32 bits)
          end
        else advance it 0
    end.

Definition Values (it : Iter) : Z * Z := (it_t it, it_val it).

Definition Err (it : Iter) : option error := it_err it.

(** ** Clients *)

(** Pushing a list of samples, in order. *)
Definition push_all (s : Series) (S : list (Z * Z)) : Series :=
  fold_left (fun s x => Push s (fst x) (snd x)) S s.

(** The reading loop [for it.Next() { t, v := it.Values(); ... }], cut
    after [fuel] calls of [Next]: the samples seen and the iterator left. *)
Fixpoint collect (fuel : nat) (it : Iter) : list (Z * Z) * Iter :=
  match fuel with
  | O => ([], it)
  | S k =>
      match Next it with
      | (true, it') =>
          let '(l, itf) := collect k it' in (Values it' :: l, itf)
      | (false, it') => ([], it')
      end
  end.

(** * Vocabulary of the statements *)

(** Every bit written so far: the bits of the complete bytes, then the
    pending ones. *)
Definition wbits (w : BitWriter) : list bool :=
  bits_of_bytes (w_out w) ++ w_pend w.

(** The writer holds fewer than eight pending bits, as every writer
    reached from [NewWriter] does. *)
Definition pend_ok (w : BitWriter) : Prop := (length (w_pend w) < 8)%nat.

(** The bits of a delta-of-delta record and of a value record. *)
Definition dod_bits (dod : Z) : list bool :=
  wbits (write_dod (NewWriter []) dod).

Definition xor_bits (l tr vDelta : Z) : list bool :=
  wbits (fst (fst (write_xor (NewWriter []) l tr vDelta))).

(** What [fits] asks of a value: a new window is opened only for an XOR
    with fewer than 32 leading zeros and fewer than 64 significant bits,
    the values that the 5-bit and 6-bit fields of the record can hold. *)
Definition xor_ok (l tr x : Z) : bool :=
  (x =? 0)
  || (negb (l =? no_window) && (l <=? Clz x) && (tr <=? Ctz x))
  || ((Clz x <? 32) && (64 - Clz x - Ctz x <? 64)).

(** The bits that one [Push] appends. *)
Definition push_bits (s : Series) (t v : Z) : list bool :=
  skipn (length (wbits (s_bw s))) (wbits (s_bw (Push s t v))).

(** The bits that pushing [S], in order, appends. *)
Fixpoint run_bits (s : Series) (S : list (Z * Z)) : list bool :=
  match S with
  | [] => []
  | x :: S' => push_bits s (fst x) (snd x) ++ run_bits (Push s (fst x) (snd x)) S'
  end.

(** The end-of-stream record of [Finish], before padding. *)
Definition end_bits : list bool :=
  low_bits 4 15 ++ low_bits 32 4294967295 ++ [Zero].

(** [fits s t v]: the sample [(t, v)] can be pushed on [s] and read back.
    A first-point record holds the distance to [t0] in 14 bits; a value
    record is as [xor_ok] asks. *)
Definition fits (s : Series) (t v : Z) : bool :=
  if s_t s =? 0 then wrap32 (t - s_t0 s) <? 2 ^ 14
  else xor_ok (s_leading s) (s_trailing s) (Z.lxor v (s_val s)).

(** [encodable s S]: every sample of [S] fits the encoder state it is
    pushed on, and the timestamp field is not 0 when [Finish] is called
    (on [New t0] this makes [S] non-empty and its last timestamp
    non-zero). *)
Fixpoint encodable (s : Series) (S : list (Z * Z)) : bool :=
  match S with
  | [] => negb (s_t s =? 0)
  | x :: S' =>
      fits s (fst x) (snd x) && encodable (Push s (fst x) (snd x)) S'
  end.

(** A sample of the Go types: a [uint32] and the pattern of a [float64]. *)
Definition sample_ok (x : Z * Z) : Prop := u32 (fst x) /\ u64 (snd x).

(** The decoder has read exactly what the encoder has written. *)
Definition sync (s : Series) (it : Iter) : Prop :=
  it_t0 it = s_t0 s /\ it_tDelta it = s_tDelta s /\ it_t it = s_t s
  /\ it_val it = s_val s
  /\ (s_leading s <= 64 ->
      it_leading it = s_leading s /\ it_trailing it = s_trailing s)
  /\ it_finished it = false /\ it_err it = None.

(** An encoder state of the Go types that is not finished. *)
Definition good (s : Series) : Prop :=
  u64 (s_val s) /\ 0 <= s_leading s /\ 0 <= s_trailing s
  /\ pend_ok (s_bw s) /\ s_finished s = false.

(** A whole block: [New], the pushes, [Finish], [Bytes]. *)
Definition encode (t0 : Z) (S : list (Z * Z)) : list Z :=
  Bytes (Finish (push_all (New t0) S)).

(** Reading a block: [NewIterator], then the reading loop; the samples
    and the final [Err]. *)
Definition decode (fuel : nat) (b : list Z)
  : option (list (Z * Z) * option error) :=
  match NewIterator b with
  | inl _ => None
  | inr it => let '(l, itf) := collect fuel it in Some (l, Err itf)
  end.

(** The second differences of the timestamps [a, b, ts], as integers, fit
    32-bit two's complement. *)
Fixpoint second_diffs_fit (a b : Z) (ts : list Z) : Prop :=
  match ts with
  | [] => True
  | c :: ts' =>
      - 2 ^ 31 <= (c - b) - (b - a) < 2 ^ 31 /\ second_diffs_fit b c ts'
  end.

(** The round trip under the hypotheses of section 8 only: the first
    sample lies less than 2^14 after the anchor and the second differences
    fit. *)
Definition round_trip_as_claimed (t0 : Z) (S : list (Z * Z)) : Prop :=
  match S with
  | [] => True
  | x :: S' =>
      u32 t0 -> Forall sample_ok S ->
      wrap32 (fst x - t0) < 2 ^ 14 ->
      second_diffs_fit t0 (fst x) (map fst S') ->
      forall fuel, (length S < fuel)%nat ->
                   decode fuel (encode t0 S) = Some (S, None)
  end.

(** "A finished encoder is immutable", read on [Finish] and [Push]. *)
Definition finished_is_immutable_as_claimed (s : Series) : Prop :=
  s_finished s = true ->
  Finish s = s /\ forall t v, Push s t v = s /\ Bytes (Push s t v) = Bytes s.

(** The two record layouts. *)
Definition first_record (s : Series) (t v : Z) : list bool :=
  low_bits 14 (wrap32 (t - s_t0 s)) ++ low_bits 64 v.

Definition next_record (s : Series) (t v : Z) : list bool :=
  dod_bits (int32 (wrap32 (t - s_t s) - s_tDelta s))
    ++ xor_bits (s_leading s) (s_trailing s) (Z.lxor v (s_val s)).

(** After a first push with timestamp 0, the second push writes a
    delta-of-delta and value record. *)
Definition second_push_as_claimed (t0 v1 t v : Z) : Prop :=
  push_bits (Push (New t0) 0 v1) t v = next_record (Push (New t0) 0 v1) t v.





(** [dod] as [Push] computes it. *)
Definition dod_of (s : Series) (t : Z) : Z :=
  int32 (wrap32 (t - s_t s) - s_tDelta s).

(** The prefix that announces a payload of [sz] bits. *)
Definition tier_prefix (sz : Z) : list bool :=
  if sz =? 7 then [true; false]
  else if sz =? 9 then [true; true; false]
  else [true; true; true; false].


(** How a call of [Next] on a live iterator can end: with a sample, with a
    latched error, or at the end-of-stream record. *)
Definition outcome (b : bool) (it' : Iter) : Prop :=
  (b = true /\ it_err it' = None /\ it_finished it' = false)
  \/ (b = false /\ it_err it' = Some UnexpectedEnd /\ it_finished it' = false)
  \/ (b = false /\ it_err it' = None /\ it_finished it' = true).

(** ** Vocabulary of the further properties *)

(** The four bytes of a [uint32], most significant first. *)
Definition be32 (x : Z) : list Z :=
  [ (x / 2 ^ 24) mod 2 ^ 8; (x / 2 ^ 16) mod 2 ^ 8;
    (x / 2 ^ 8) mod 2 ^ 8; (x / 2 ^ 0) mod 2 ^ 8 ].

(** A Go [byte]. *)
Definition byte_ok (b : Z) : Prop := 0 <= b < 2 ^ 8.

(** The writer [w'] holds the bytes of [w], and possibly more after them. *)
Definition extends (w w' : BitWriter) : Prop :=
  exists more, w_out w' = w_out w ++ more.

(** The encoder's stored value is a 64-bit pattern and its window is
    either absent or made of two counts that leave at least one bit. *)
Definition window_inv (s : Series) : Prop :=
  u64 (s_val s)
  /\ (s_leading s = no_window
      \/ (0 <= s_leading s /\ 0 <= s_trailing s
          /\ s_leading s + s_trailing s <= 63)).

(** A value [v] after a value [p] whose XOR is zero or fits the fields of
    a new window: fewer than 32 leading zeros, fewer than 64 significant
    bits. *)
Definition xor_plain (p v : Z) : bool :=
  (Z.lxor v p =? 0)
  || ((Clz (Z.lxor v p) <? 32)
      && (64 - Clz (Z.lxor v p) - Ctz (Z.lxor v p) <? 64)).

(** Every value of [vs] is [xor_plain] after the one before it, [p] being
    before the first. *)
Fixpoint values_plain (p : Z) (vs : list Z) : bool :=
  match vs with
  | [] => true
  | v :: vs' => xor_plain p v && values_plain v vs'
  end.



(** * Properties *)

(** ** Bit lists *)

Lemma length_low_bits (n : nat) (u : Z) : length (low_bits n u) = n.
Proof. induction n; simpl; congruence. Qed.

Lemma testbit_split (u : Z) (k : nat) :
  u mod 2 ^ Z.of_nat (S k)
  = Z.b2z (Z.testbit u (Z.of_nat k)) * 2 ^ Z.of_nat k + u mod 2 ^ Z.of_nat k.
Proof.
  rewrite Nat2Z.inj_succ, Z.pow_succ_r by lia.
  rewrite (Z.mul_comm 2), Z.rem_mul_r by lia.
  rewrite Z.testbit_spec' by lia. lia.
Qed.

Lemma bits_value_low_bits (n : nat) (u acc : Z) :
  bits_value acc (low_bits n u) = acc * 2 ^ Z.of_nat n + u mod 2 ^ Z.of_nat n.
Proof.
  revert acc; induction n as [|k IH]; intro acc.
  - simpl. rewrite Z.mod_1_r. lia.
  - cbn [low_bits bits_value]. rewrite IH, testbit_split.
    rewrite (Nat2Z.inj_succ k), Z.pow_succ_r by lia. ring.
Qed.

Lemma bits_of_byte_of_bits (p : list bool) :
  length p = 8%nat -> bits_of_byte (byte_of_bits p) = p.
Proof.
  intro H.
  do 8 (destruct p as [|b p]; [discriminate H | destruct b]);
    (destruct p; [reflexivity | discriminate H]).
Qed.

Lemma bits_of_bytes_app (a b : list Z) :
  bits_of_bytes (a ++ b) = bits_of_bytes a ++ bits_of_bytes b.
Proof.
  induction a as [|x a IH]; [reflexivity|].
  cbn [app bits_of_bytes]. now rewrite IH, app_assoc.
Qed.

(** ** The writer as a bit list *)

Lemma wbits_WriteBit (w : BitWriter) (b : bool) :
  wbits (WriteBit w b) = wbits w ++ [b].
Proof.
  unfold WriteBit, wbits.
  destruct (Nat.eqb_spec (length (w_pend w ++ [b])) 8) as [E|E]; simpl.
  - rewrite bits_of_bytes_app. cbn [bits_of_bytes].
    rewrite bits_of_byte_of_bits by exact E.
    now rewrite !app_nil_r, app_assoc.
  - now rewrite app_assoc.
Qed.

Lemma wbits_write_list (bs : list bool) (w : BitWriter) :
  wbits (write_list w bs) = wbits w ++ bs.
Proof.
  revert w; induction bs as [|b bs IH]; intro w.
  - simpl. now rewrite app_nil_r.
  - change (write_list w (b :: bs)) with (write_list (WriteBit w b) bs).
    rewrite IH, wbits_WriteBit, <- app_assoc. reflexivity.
Qed.

Lemma wbits_WriteBits (w : BitWriter) (u n : Z) :
  wbits (WriteBits w u n) = wbits w ++ low_bits (Z.to_nat n) u.
Proof. apply wbits_write_list. Qed.

Lemma pend_ok_WriteBit (w : BitWriter) (b : bool) :
  pend_ok w -> pend_ok (WriteBit w b).
Proof.
  unfold pend_ok, WriteBit. intro H.
  destruct (Nat.eqb_spec (length (w_pend w ++ [b])) 8) as [E|E]; simpl.
  - lia.
  - rewrite length_app in *. simpl in *. lia.
Qed.

Lemma pend_ok_write_list (bs : list bool) (w : BitWriter) :
  pend_ok w -> pend_ok (write_list w bs).
Proof.
  revert w; induction bs as [|b bs IH]; intros w H; [exact H|].
  change (write_list w (b :: bs)) with (write_list (WriteBit w b) bs).
  apply IH, pend_ok_WriteBit, H.
Qed.

Lemma pend_ok_WriteBits (w : BitWriter) (u n : Z) :
  pend_ok w -> pend_ok (WriteBits w u n).
Proof. apply pend_ok_write_list. Qed.

Lemma Flush_pend (w : BitWriter) (b : bool) :
  pend_ok w -> w_pend (Flush w b) = [].
Proof.
  destruct w as [o p]. unfold pend_ok. simpl. intro H.
  do 8 (destruct p as [|? p]; [reflexivity|]).
  simpl in H. lia.
Qed.

Lemma Flush_bits (w : BitWriter) (b : bool) :
  pend_ok w ->
  exists pad, bits_of_bytes (w_out (Flush w b)) = wbits w ++ pad.
Proof.
  intro H. exists (repeat b ((8 - length (w_pend w) mod 8) mod 8)).
  pose proof (wbits_write_list
                (repeat b ((8 - length (w_pend w) mod 8) mod 8)) w) as E.
  fold (Flush w b) in E. unfold wbits at 1 in E.
  now rewrite (Flush_pend w b H), app_nil_r in E.
Qed.

(** ** The reader on written bits *)

Lemma read_n_app (n : nat) (bs rest : list bool) (acc : Z) :
  length bs = n -> read_n n acc (bs ++ rest) = (inr (bits_value acc bs), rest).
Proof.
  revert bs acc; induction n as [|k IH]; intros [|b bs] acc H;
    try discriminate H; [reflexivity|].
  simpl. apply IH. now injection H.
Qed.

Lemma ReadBits_low_bits (n u : Z) (rest : list bool) :
  0 <= n ->
  ReadBits (low_bits (Z.to_nat n) u ++ rest) n = (inr (u mod 2 ^ n), rest).
Proof.
  intro H. unfold ReadBits.
  rewrite read_n_app by apply length_low_bits.
  rewrite bits_value_low_bits, Z2Nat.id by exact H.
  reflexivity.
Qed.

(** ** Machine arithmetic *)

Ltac pow_consts :=
  change (2 ^ 64) with 18446744073709551616 in *;
  change (2 ^ 63) with 9223372036854775808 in *;
  change (2 ^ 32) with 4294967296 in *;
  change (2 ^ 31) with 2147483648 in *;
  change (2 ^ 14) with 16384 in *.

Ltac wrap_arith :=
  unfold u32, u64, wrap32, wrap64, int32, int64 in *; pow_consts;
  Z.div_mod_to_equations; lia.

Lemma int32_range (x : Z) : - 2 ^ 31 <= int32 x < 2 ^ 31.
Proof. wrap_arith. Qed.

Lemma wrap64_id (x : Z) : u64 x -> wrap64 x = x.
Proof. intro H. unfold u64, wrap64 in *. now apply Z.mod_small. Qed.

(** The decoder's timestamp update undoes the encoder's. *)
Lemma tDelta_back (t st sd : Z) :
  wrap32 (sd + wrap32 (int32 (wrap32 (t - st) - sd))) = wrap32 (t - st).
Proof. wrap_arith. Qed.

Lemma t_back (t st : Z) : u32 t -> wrap32 (st + wrap32 (t - st)) = t.
Proof. intro H. wrap_arith. Qed.

Lemma t_first_back (t t0 : Z) :
  u32 t -> wrap32 (t - t0) < 2 ^ 14 ->
  wrap32 (t0 + wrap32 (wrap32 (t - t0) mod 2 ^ 14)) = t.
Proof. intros H1 H2. wrap_arith. Qed.

(** The sign rule of the decoder on a payload of [sz] bits written by the
    encoder, for a [dod] of the tier of [sz]. *)
Lemma payload_back (sz dod : Z) :
  1 <= sz <= 31 ->
  - 2 ^ (sz - 1) < dod <= 2 ^ (sz - 1) ->
  int32 (if wrap64 dod mod 2 ^ sz >? Z.shiftl 1 (sz - 1)
         then wrap64 (wrap64 dod mod 2 ^ sz - Z.shiftl 1 sz)
         else wrap64 dod mod 2 ^ sz) = dod.
Proof.
  intros Hsz Hd. set (bits := wrap64 dod mod 2 ^ sz).
  rewrite !Z.shiftl_1_l.
  assert (P : 2 ^ sz = 2 * 2 ^ (sz - 1)).
  { rewrite <- Z.pow_succ_r by lia. f_equal. lia. }
  assert (P31 : 2 ^ (sz - 1) <= 2 ^ 30) by (apply Z.pow_le_mono_r; lia).
  assert (Q : 2 ^ 64 = 2 ^ (64 - sz) * 2 ^ sz).
  { rewrite <- Z.pow_add_r by lia. f_equal. lia. }
  assert (B : bits = dod mod 2 ^ sz).
  { unfold bits, wrap64. rewrite Q, Z.mul_comm.
    rewrite Z.rem_mul_r by lia.
    rewrite Z.mul_comm, Z.mod_add by lia. apply Z.mod_mod. lia. }
  change (2 ^ 30) with 1073741824 in P31.
  pose proof (Z.pow_pos_nonneg 2 (sz - 1) ltac:(lia) ltac:(lia)) as Hp.
  destruct (Z.leb_spec 0 dod) as [Hn|Hn].
  - assert (E : bits = dod) by (rewrite B; apply Z.mod_small; lia).
    rewrite E. destruct (Z.gtb_spec dod (2 ^ (sz - 1))); [lia|].
    wrap_arith.
  - assert (E : bits = dod + 2 ^ sz).
    { rewrite B. symmetry. apply Z.mod_unique with (q := -1); lia. }
    rewrite E. destruct (Z.gtb_spec (dod + 2 ^ sz) (2 ^ (sz - 1))); [|lia].
    replace (dod + 2 ^ sz - 2 ^ sz) with dod by lia.
    clear B E bits Q. wrap_arith.
Qed.

Lemma payload32_back (dod : Z) :
  - 2 ^ 31 <= dod < 2 ^ 31 ->
  int32 (wrap64 dod mod 2 ^ 32) = dod.
Proof. intro H. wrap_arith. Qed.

Lemma payload32_not_end (dod : Z) :
  - 2 ^ 31 <= dod < 2 ^ 31 -> dod <> -1 ->
  wrap64 dod mod 2 ^ 32 <> 4294967295.
Proof. intros H1 H2. wrap_arith. Qed.

(** ** Leading and trailing zeros *)

Lemma ctz_scan_spec (n : nat) (x : Z) :
  0 <= ctz_scan n x /\ x mod 2 ^ ctz_scan n x = 0.
Proof.
  revert x; induction n as [|k IH]; intro x; cbn [ctz_scan].
  - split; [lia | apply Z.mod_1_r].
  - destruct (Z.odd x) eqn:O.
    + split; [lia | apply Z.mod_1_r].
    + destruct (IH (x / 2)) as [H0 H1]. split; [lia|].
      assert (E : x = 2 * (x / 2)).
      { pose proof (Zdiv.Zmod_odd x) as M. rewrite O in M.
        pose proof (Z.div_mod x 2 ltac:(lia)). lia. }
      rewrite Z.pow_add_r, Z.pow_1_r by lia.
      rewrite E at 1. rewrite Z.mul_mod_distr_l by lia. lia.
Qed.

Section Zeros.
Variable x : Z.
Hypothesis x_pos : 0 < x.
Hypothesis x_u64 : x < 2 ^ 64.

Lemma Clz_pos : Clz x = 63 - Z.log2 x.
Proof. unfold Clz. destruct (Z.eqb_spec x 0); [lia | reflexivity]. Qed.

Lemma Ctz_pos : Ctz x = ctz_scan 64 x.
Proof. unfold Ctz. destruct (Z.eqb_spec x 0); [lia | reflexivity]. Qed.

Lemma log2_u64 : 0 <= Z.log2 x < 64.
Proof.
  split; [apply Z.log2_nonneg|]. apply Z.log2_lt_pow2; [exact x_pos | exact x_u64].
Qed.

Lemma Ctz_divides : 0 <= Ctz x /\ x mod 2 ^ Ctz x = 0.
Proof. rewrite Ctz_pos. apply ctz_scan_spec. Qed.

Lemma Ctz_le_log2 : Ctz x <= Z.log2 x.
Proof.
  destruct Ctz_divides as [H0 H1].
  apply Z.log2_le_pow2; [exact x_pos|].
  apply Z.mod_divide in H1; [|apply Z.pow_nonzero; lia].
  apply Z.divide_pos_le; assumption.
Qed.

Lemma Clz_Ctz_bounds : 0 <= Clz x /\ 0 <= Ctz x /\ Clz x + Ctz x <= 63.
Proof.
  pose proof log2_u64. pose proof Ctz_le_log2.
  pose proof Ctz_divides. rewrite Clz_pos. lia.
Qed.

(** A window [L] leading, [T] trailing that covers [x]. *)
Variables L T : Z.
Hypothesis L_ok : 0 <= L <= Clz x.
Hypothesis T_ok : 0 <= T <= Ctz x.

Lemma window_low : x mod 2 ^ T = 0.
Proof.
  destruct Ctz_divides as [_ H1].
  apply Z.mod_divide in H1; [|apply Z.pow_nonzero; lia].
  apply Z.mod_divide; [apply Z.pow_nonzero; lia|].
  apply Z.divide_trans with (2 ^ Ctz x); [|exact H1].
  exists (2 ^ (Ctz x - T)). rewrite <- Z.pow_add_r by lia. f_equal. lia.
Qed.

Lemma window_shr : shr64 x T = x / 2 ^ T.
Proof.
  pose proof Clz_Ctz_bounds. unfold shr64.
  destruct (Z.leb_spec 64 T); [lia|]. apply Z.shiftr_div_pow2. lia.
Qed.

Lemma window_fits : (x / 2 ^ T) mod 2 ^ (64 - L - T) = x / 2 ^ T.
Proof.
  pose proof Clz_Ctz_bounds as B. pose proof log2_u64 as G.
  rewrite Clz_pos in *.
  apply Z.mod_small. split; [apply Z.div_pos; lia|].
  apply Z.div_lt_upper_bound; [lia|].
  rewrite <- Z.pow_add_r by lia.
  replace (T + (64 - L - T)) with (64 - L) by lia.
  apply Z.lt_le_trans with (2 ^ (Z.log2 x + 1)).
  - apply Z.log2_spec. exact x_pos.
  - apply Z.pow_le_mono_r; lia.
Qed.

Lemma window_shl : shl64 (x / 2 ^ T) T = x.
Proof.
  pose proof Clz_Ctz_bounds. unfold shl64.
  destruct (Z.leb_spec 64 T); [lia|].
  rewrite Z.shiftl_mul_pow2 by lia.
  pose proof window_low as W.
  pose proof (Z.div_mod x (2 ^ T) ltac:(apply Z.pow_nonzero; lia)) as D.
  replace (x / 2 ^ T * 2 ^ T) with x by lia.
  apply wrap64_id. unfold u64. lia.
Qed.
End Zeros.

(** ** XOR of bit patterns *)

Lemma lxor_u64 (a b : Z) : u64 a -> u64 b -> u64 (Z.lxor a b).
Proof.
  unfold u64. intros Ha Hb.
  assert (N : 0 <= Z.lxor a b) by (apply Z.lxor_nonneg; lia).
  split; [exact N|].
  destruct (Z.eq_dec (Z.lxor a b) 0) as [E|E]; [rewrite E; lia|].
  apply Z.log2_lt_pow2; [lia|].
  apply Z.le_lt_trans with (Z.max (Z.log2 a) (Z.log2 b)).
  - apply Z.log2_lxor; lia.
  - destruct (Z.eq_dec a 0) as [->|]; destruct (Z.eq_dec b 0) as [->|];
      simpl Z.log2; apply Z.max_lub_lt; try lia; apply Z.log2_lt_pow2; lia.
Qed.

Lemma lxor_back (v p : Z) : Z.lxor p (Z.lxor v p) = v.
Proof.
  rewrite (Z.lxor_comm v p), <- Z.lxor_assoc, Z.lxor_nilpotent.
  apply Z.lxor_0_l.
Qed.

(** ** One record at a time *)

Lemma wbits_write_dod (w : BitWriter) (dod : Z) :
  wbits (write_dod w dod) = wbits w ++ dod_bits dod.
Proof.
  unfold dod_bits, write_dod.
  repeat match goal with |- context [if ?c then _ else _] => destruct c end;
    now rewrite ?wbits_WriteBits, ?wbits_WriteBit, <- ?app_assoc.
Qed.

Lemma wbits_write_xor (w : BitWriter) (l tr x : Z) :
  wbits (fst (fst (write_xor w l tr x))) = wbits w ++ xor_bits l tr x.
Proof.
  unfold xor_bits, write_xor.
  repeat match goal with |- context [if ?c then _ else _] => destruct c end;
    cbn [fst]; now rewrite ?wbits_WriteBits, ?wbits_WriteBit, <- ?app_assoc.
Qed.

Lemma window_write_xor (w w' : BitWriter) (l tr x : Z) :
  snd (fst (write_xor w l tr x)) = snd (fst (write_xor w' l tr x))
  /\ snd (write_xor w l tr x) = snd (write_xor w' l tr x).
Proof.
  unfold write_xor.
  repeat match goal with |- context [if ?c then _ else _] => destruct c end;
    split; reflexivity.
Qed.

Lemma pend_ok_write_dod (w : BitWriter) (dod : Z) :
  pend_ok w -> pend_ok (write_dod w dod).
Proof.
  intro H. unfold write_dod.
  repeat match goal with |- context [if ?c then _ else _] => destruct c end;
    auto using pend_ok_WriteBits, pend_ok_WriteBit.
Qed.

Lemma pend_ok_write_xor (w : BitWriter) (l tr x : Z) :
  pend_ok w -> pend_ok (fst (fst (write_xor w l tr x))).
Proof.
  intro H. unfold write_xor.
  repeat match goal with |- context [if ?c then _ else _] => destruct c end;
    cbn [fst]; auto 7 using pend_ok_WriteBits, pend_ok_WriteBit.
Qed.

Lemma read_prefix_0 (r : list bool) :
  read_prefix 4 0 (false :: r) = (inr 0, r).
Proof. reflexivity. Qed.
Lemma read_prefix_2 (r : list bool) :
  read_prefix 4 0 (true :: false :: r) = (inr 2, r).
Proof. reflexivity. Qed.
Lemma read_prefix_6 (r : list bool) :
  read_prefix 4 0 (true :: true :: false :: r) = (inr 6, r).
Proof. reflexivity. Qed.
Lemma read_prefix_14 (r : list bool) :
  read_prefix 4 0 (true :: true :: true :: false :: r) = (inr 14, r).
Proof. reflexivity. Qed.
Lemma read_prefix_15 (r : list bool) :
  read_prefix 4 0 (true :: true :: true :: true :: r) = (inr 15, r).
Proof. reflexivity. Qed.

Lemma dod_bits_cases (dod : Z) :
  dod_bits dod =
    if dod =? 0 then [false]
    else if (-63 <=? dod) && (dod <=? 64) then
      [true; false] ++ low_bits 7 (wrap64 dod)
    else if (-255 <=? dod) && (dod <=? 256) then
      [true; true; false] ++ low_bits 9 (wrap64 dod)
    else if (-2047 <=? dod) && (dod <=? 2048) then
      [true; true; true; false] ++ low_bits 12 (wrap64 dod)
    else [true; true; true; true] ++ low_bits 32 (wrap64 dod).
Proof.
  unfold dod_bits, write_dod.
  repeat match goal with |- context [if ?c then _ else _] => destruct c end;
    now rewrite ?wbits_WriteBits, ?wbits_WriteBit.
Qed.

Ltac read_next :=
  match goal with
  | |- context [ReadBits (low_bits _ ?u ++ ?r) ?n] =>
      let R := fresh "R" in
      pose proof (ReadBits_low_bits n u r ltac:(lia)) as R;
      let k := eval compute in (Z.to_nat n) in
      change (Z.to_nat n) with k in R;
      rewrite R; clear R
  end.

(** Reading back [n] bits that were written from [u]. *)
Ltac read_back n u rest :=
  let R := fresh "R" in
  pose proof (ReadBits_low_bits n u rest ltac:(lia)) as R;
  let k := eval compute in (Z.to_nat n) in
  change (Z.to_nat n) with k in R;
  rewrite R; clear R.

Lemma Next_dod (it : Iter) (dod : Z) (rest : list bool) :
  it_err it = None -> it_finished it = false -> it_t it <> 0 ->
  - 2 ^ 31 <= dod < 2 ^ 31 ->
  it_br it = dod_bits dod ++ rest ->
  Next it = advance (set_br it rest) dod.
Proof.
  destruct it as [t0 tD t v l tr br b fin err]; cbn [it_err it_finished it_t it_br].
  intros -> -> Ht Hd ->. unfold Next.
  cbn [it_err it_finished it_t it_br orb].
  destruct (Z.eqb_spec t 0) as [|_]; [contradiction|].
  rewrite dod_bits_cases.
  destruct (Z.eqb_spec dod 0) as [->|N0].
  { cbn [app]. rewrite read_prefix_0. reflexivity. }
  destruct ((-63 <=? dod) && (dod <=? 64)) eqn:T7.
  { cbn [app]. rewrite read_prefix_2.
    cbn [Z.eqb Pos.eqb negb it_br set_br].
    read_back 7 (wrap64 dod) rest.
    rewrite payload_back; [reflexivity | lia | change (2 ^ (7 - 1)) with 64; lia]. }
  destruct ((-255 <=? dod) && (dod <=? 256)) eqn:T9.
  { cbn [app]. rewrite read_prefix_6.
    cbn [Z.eqb Pos.eqb negb it_br set_br].
    read_back 9 (wrap64 dod) rest.
    rewrite payload_back; [reflexivity | lia | change (2 ^ (9 - 1)) with 256; lia]. }
  destruct ((-2047 <=? dod) && (dod <=? 2048)) eqn:T12.
  { cbn [app]. rewrite read_prefix_14.
    cbn [Z.eqb Pos.eqb negb it_br set_br].
    read_back 12 (wrap64 dod) rest.
    rewrite payload_back; [reflexivity | lia | change (2 ^ (12 - 1)) with 2048; lia]. }
  cbn [app]. rewrite read_prefix_15.
  cbn [Z.eqb Pos.eqb negb it_br set_br].
  read_back 32 (wrap64 dod) rest.
  destruct (Z.eqb_spec (wrap64 dod mod 2 ^ 32) 4294967295) as [E|_].
  { exfalso. revert E. apply payload32_not_end; lia. }
  rewrite payload32_back by lia. reflexivity.
Qed.

Lemma xor_bits_cases (l tr x : Z) :
  xor_bits l tr x =
    if x =? 0 then [false]
    else if negb (l =? no_window) && (l <=? Clz x) && (tr <=? Ctz x) then
      [true; false]
        ++ low_bits (Z.to_nat (int64 (64 - int64 l - int64 tr))) (shr64 x tr)
    else
      [true; true] ++ low_bits 5 (Clz x)
        ++ low_bits 6 (wrap64 (64 - Clz x - Ctz x))
        ++ low_bits (Z.to_nat (int64 (wrap64 (64 - Clz x - Ctz x))))
             (shr64 x (Ctz x)).
Proof.
  unfold xor_bits, write_xor.
  repeat match goal with |- context [if ?c then _ else _] => destruct c end;
    cbn [fst]; rewrite ?wbits_WriteBits, ?wbits_WriteBit, <- ?app_assoc;
    reflexivity.
Qed.

Lemma read_value_back (it : Iter) (l tr v : Z) (rest : list bool) :
  u64 v -> u64 (it_val it) -> 0 <= l -> 0 <= tr ->
  (l <= 64 -> it_leading it = l /\ it_trailing it = tr) ->
  xor_ok l tr (Z.lxor v (it_val it)) = true ->
  it_br it = xor_bits l tr (Z.lxor v (it_val it)) ++ rest ->
  exists l' tr',
    read_value it
    = (true, mkIter (it_t0 it) (it_tDelta it) (it_t it) v l' tr' rest
                    (it_b it) (it_finished it) (it_err it))
    /\ 0 <= snd (fst (write_xor (NewWriter []) l tr (Z.lxor v (it_val it))))
    /\ 0 <= snd (write_xor (NewWriter []) l tr (Z.lxor v (it_val it)))
    /\ (snd (fst (write_xor (NewWriter []) l tr (Z.lxor v (it_val it)))) <= 64 ->
        l' = snd (fst (write_xor (NewWriter []) l tr (Z.lxor v (it_val it))))
        /\ tr' = snd (write_xor (NewWriter []) l tr (Z.lxor v (it_val it)))).
Proof.
  destruct it as [t0 tD t p dl dtr br b fin err].
  cbn [it_val it_leading it_trailing it_br it_t0 it_tDelta it_t it_b
       it_finished it_err].
  intros Hv Hp Hl Htr Hw Hok ->.
  pose proof (lxor_u64 v p Hv Hp) as Hx.
  pose proof (lxor_back v p) as Hback.
  assert (Hz : Z.lxor v p = 0 -> v = p) by apply Z.lxor_eq.
  revert Hx Hback Hz Hok. generalize (Z.lxor v p) as x. intros x Hx Hback Hz Hok.
  rewrite xor_bits_cases. unfold xor_ok in Hok. unfold write_xor, read_value.
  cbn [it_br].
  destruct (Z.eqb_spec x 0) as [X0|X0].
  { cbn [app ReadBit negb set_br fst snd]. rewrite Hz by exact X0.
    exists dl, dtr. repeat split; try lia; apply Hw; assumption. }
  assert (Xpos : 0 < x) by (unfold u64 in Hx; lia).
  assert (X64 : x < 2 ^ 64) by apply Hx.
  pose proof (Clz_Ctz_bounds x Xpos X64) as B.
  destruct (negb (l =? no_window) && (l <=? Clz x) && (tr <=? Ctz x)) eqn:R.
  - (* the window is reused *)
    assert (HL : 0 <= l <= Clz x) by lia.
    assert (HT : 0 <= tr <= Ctz x) by lia.
    destruct (Hw ltac:(lia)) as [-> ->].
    cbn [app ReadBit negb set_br fst snd it_br it_leading it_trailing it_val].
    assert (E1 : int64 (64 - int64 l - int64 tr) = 64 - l - tr) by wrap_arith.
    assert (E2 : int64 (wrap64 (64 - l - tr)) = 64 - l - tr) by wrap_arith.
    rewrite E1, E2.
    rewrite ReadBits_low_bits by lia.
    rewrite window_shr by assumption.
    rewrite window_fits by assumption.
    rewrite window_shl by assumption.
    rewrite Hback.
    exists l, tr. repeat split; lia.
  - (* a new window *)
    assert (HL : 0 <= Clz x <= Clz x) by lia.
    assert (HT : 0 <= Ctz x <= Ctz x) by lia.
    assert (F : Clz x < 32 /\ 64 - Clz x - Ctz x < 64) by lia.
    cbn [app ReadBit negb set_br fst snd it_br it_leading it_trailing it_val].
    rewrite <- !app_assoc.
    assert (E0 : wrap64 (64 - Clz x - Ctz x) = 64 - Clz x - Ctz x)
      by wrap_arith.
    rewrite E0.
    assert (E1 : int64 (64 - Clz x - Ctz x) = 64 - Clz x - Ctz x)
      by wrap_arith.
    rewrite E1.
    read_next.
    cbn [set_br set_leading it_br it_leading it_trailing it_val it_t0
         it_tDelta it_t it_b it_finished it_err].
    read_next.
    cbn [set_br set_leading set_trailing it_br it_leading it_trailing it_val
         it_t0 it_tDelta it_t it_b it_finished it_err].
    assert (E5 : Clz x mod 2 ^ 5 = Clz x) by (apply Z.mod_small; lia).
    assert (E6 : (64 - Clz x - Ctz x) mod 2 ^ 6 = 64 - Clz x - Ctz x)
      by (apply Z.mod_small; change (2 ^ 6) with 64; lia).
    rewrite E5, E6.
    assert (E7 : wrap64 (64 - Clz x - (64 - Clz x - Ctz x)) = Ctz x)
      by wrap_arith.
    rewrite E7, E0, E1.
    rewrite ReadBits_low_bits by lia.
    rewrite window_shr by assumption.
    rewrite window_fits by assumption.
    rewrite window_shl by assumption.
    rewrite Hback.
    exists (Clz x), (Ctz x). repeat split; lia.
Qed.

(** ** The encoder and the decoder in step *)

Lemma skipn_length_app {A : Type} (a b : list A) :
  skipn (length a) (a ++ b) = b.
Proof.
  rewrite skipn_app, skipn_all, Nat.sub_diag. reflexivity.
Qed.

Lemma wbits_Push (s : Series) (t v : Z) :
  wbits (s_bw (Push s t v)) =
    wbits (s_bw s) ++
    (if s_t s =? 0
     then low_bits 14 (wrap32 (t - s_t0 s)) ++ low_bits 64 v
     else dod_bits (int32 (wrap32 (t - s_t s) - s_tDelta s))
            ++ xor_bits (s_leading s) (s_trailing s) (Z.lxor v (s_val s))).
Proof.
  unfold Push. destruct (s_t s =? 0).
  - cbn [s_bw]. now rewrite !wbits_WriteBits, <- app_assoc.
  - destruct (write_xor _ _ _ _) as [[w l] tr] eqn:E. cbn [s_bw].
    change w with (fst (fst (w, l, tr))). rewrite <- E.
    now rewrite wbits_write_xor, wbits_write_dod, <- app_assoc.
Qed.

Lemma push_bits_cases (s : Series) (t v : Z) :
  push_bits s t v =
    if s_t s =? 0
    then low_bits 14 (wrap32 (t - s_t0 s)) ++ low_bits 64 v
    else dod_bits (int32 (wrap32 (t - s_t s) - s_tDelta s))
           ++ xor_bits (s_leading s) (s_trailing s) (Z.lxor v (s_val s)).
Proof. unfold push_bits. rewrite wbits_Push. apply skipn_length_app. Qed.

Lemma wbits_Push_app (s : Series) (t v : Z) :
  wbits (s_bw (Push s t v)) = wbits (s_bw s) ++ push_bits s t v.
Proof. rewrite push_bits_cases. apply wbits_Push. Qed.

Lemma wbits_push_all (S : list (Z * Z)) (s : Series) :
  wbits (s_bw (push_all s S)) = wbits (s_bw s) ++ run_bits s S.
Proof.
  revert s; induction S as [|x S IH]; intro s.
  - simpl. now rewrite app_nil_r.
  - change (push_all s (x :: S)) with (push_all (Push s (fst x) (snd x)) S).
    cbn [run_bits]. now rewrite IH, wbits_Push_app, <- app_assoc.
Qed.

Lemma Push_fields (s : Series) (t v : Z) :
  s_t0 (Push s t v) = s_t0 s /\ s_t (Push s t v) = t
  /\ s_val (Push s t v) = v /\ s_finished (Push s t v) = s_finished s
  /\ s_tDelta (Push s t v)
     = (if s_t s =? 0 then wrap32 (t - s_t0 s) else wrap32 (t - s_t s))
  /\ s_leading (Push s t v)
     = (if s_t s =? 0 then s_leading s
        else snd (fst (write_xor (NewWriter []) (s_leading s) (s_trailing s)
                                 (Z.lxor v (s_val s)))))
  /\ s_trailing (Push s t v)
     = (if s_t s =? 0 then s_trailing s
        else snd (write_xor (NewWriter []) (s_leading s) (s_trailing s)
                            (Z.lxor v (s_val s)))).
Proof.
  unfold Push. destruct (s_t s =? 0).
  - repeat split.
  - pose proof (window_write_xor
                  (write_dod (s_bw s) (int32 (wrap32 (t - s_t s) - s_tDelta s)))
                  (NewWriter []) (s_leading s) (s_trailing s)
                  (Z.lxor v (s_val s))) as [W1 W2].
    destruct (write_xor (write_dod _ _) _ _ _) as [[w l] tr].
    cbn [fst snd] in W1, W2. cbn. repeat split; assumption.
Qed.

Lemma pend_ok_Push (s : Series) (t v : Z) :
  pend_ok (s_bw s) -> pend_ok (s_bw (Push s t v)).
Proof.
  intro H. unfold Push. destruct (s_t s =? 0).
  - cbn [s_bw]. auto using pend_ok_WriteBits.
  - destruct (write_xor _ _ _ _) as [[w l] tr] eqn:E. cbn [s_bw].
    change w with (fst (fst (w, l, tr))). rewrite <- E.
    auto using pend_ok_write_xor, pend_ok_write_dod.
Qed.

(** One [Push] and the matching [Next]. *)
Lemma Push_Next (s : Series) (it : Iter) (t v : Z) (rest : list bool) :
  good s -> sync s it -> u32 t -> u64 v ->
  fits s t v = true ->
  it_br it = push_bits s t v ++ rest ->
  exists it',
    Next it = (true, it') /\ Values it' = (t, v)
    /\ good (Push s t v) /\ sync (Push s t v) it' /\ it_br it' = rest.
Proof.
  intros (Gv & Gl & Gt & Gp & Gf) (S0 & SD & St & Sv & Sw & Sf & Se) Ht Hv F Hbr.
  pose proof (Push_fields s t v) as (P0 & Pt & Pv & Pf & PD & Pl & Ptr).
  pose proof (pend_ok_Push s t v Gp) as Pp.
  rewrite push_bits_cases in Hbr. unfold fits in F.
  unfold good, sync. rewrite P0, Pt, Pv, Pf, PD, Pl, Ptr.
  destruct it as [t0 tD ti p dl dtr br b fin err].
  cbn [it_val it_leading it_trailing it_br it_t0 it_tDelta it_t it_b
       it_finished it_err] in *.
  subst t0 tD ti p fin err br.
  destruct (Z.eqb_spec (s_t s) 0) as [Z0|Z0].
  - (* a first-point record *)
    unfold Next.
    cbn [it_val it_leading it_trailing it_br it_t0 it_tDelta it_t it_b
         it_finished it_err orb]. rewrite Z0. cbn [Z.eqb].
    rewrite <- app_assoc. read_next.
    cbn [set_br set_time it_br]. read_next.
    apply Z.ltb_lt in F.
    eexists. split; [reflexivity|].
    cbn [Values set_br set_val set_time it_val it_leading it_trailing it_br
         it_t0 it_tDelta it_t it_b it_finished it_err].
    assert (Ev : v mod 2 ^ 64 = v) by (apply Z.mod_small; exact Hv).
    rewrite Ev, t_first_back by assumption.
    assert (ED : wrap32 (wrap32 (t - s_t0 s) mod 2 ^ 14) = wrap32 (t - s_t0 s))
      by wrap_arith.
    rewrite ED. repeat split; auto; try apply Hv; try apply Sw; assumption.
  - (* a delta-of-delta record and a value record *)
    rewrite <- app_assoc.
    erewrite Next_dod;
      [ | reflexivity | reflexivity | exact Z0 | apply int32_range
        | reflexivity ].
    unfold advance.
    cbn [set_br it_tDelta it_t]. rewrite tDelta_back, t_back by exact Ht.
    edestruct (read_value_back
                 (mkIter (s_t0 s) (wrap32 (t - s_t s)) t (s_val s) dl dtr
                    (xor_bits (s_leading s) (s_trailing s)
                       (Z.lxor v (s_val s)) ++ rest) b false None)
                 (s_leading s) (s_trailing s) v rest)
      as (l' & tr' & R & W0 & W1 & W2);
      try eassumption; try reflexivity.
    cbn [it_val it_leading it_trailing it_br it_t0 it_tDelta it_t it_b
         it_finished it_err] in *.
    unfold set_time, set_br.
    cbn [it_val it_leading it_trailing it_br it_t0
         it_tDelta it_t it_b it_finished it_err].
    rewrite R. eexists. split; [reflexivity|].
    cbn [Values it_val it_leading it_trailing it_br
         it_t0 it_tDelta it_t it_b it_finished it_err].
    repeat split; auto; try apply Hv; apply W2; assumption.
Qed.

Lemma Next_end (it : Iter) (rest : list bool) :
  it_err it = None -> it_finished it = false -> it_t it <> 0 ->
  it_br it = end_bits ++ rest ->
  exists it', Next it = (false, it') /\ it_err it' = None.
Proof.
  destruct it as [t0 tD t v l tr br b fin err];
    cbn [it_err it_finished it_t it_br].
  intros -> -> Ht ->. unfold Next.
  cbn [it_err it_finished it_t it_br orb].
  destruct (Z.eqb_spec t 0) as [|_]; [contradiction|].
  eexists. split; reflexivity.
Qed.

(** A whole run: the decoder, placed where the encoder stood before the
    samples [S] were pushed, reads [S] and then the end-of-stream record. *)
Lemma collect_run (S : list (Z * Z)) :
  forall (s : Series) (it : Iter) (rest : list bool) (fuel : nat),
    good s -> sync s it -> Forall sample_ok S ->
    encodable s S = true ->
    it_br it = run_bits s S ++ end_bits ++ rest ->
    (length S < fuel)%nat ->
    exists itf, collect fuel it = (S, itf) /\ Err itf = None.
Proof.
  induction S as [|[t v] S IH]; intros s it rest fuel G Sy HS E Hbr Hf.
  - destruct fuel as [|k]; [simpl in Hf; lia|].
    cbn [encodable] in E. apply negb_true_iff, Z.eqb_neq in E.
    destruct Sy as (_ & _ & St & _ & _ & Sf & Se).
    destruct (Next_end it rest Se Sf ltac:(congruence) Hbr) as (it' & N & Ne).
    exists it'. cbn [collect]. rewrite N. split; [reflexivity | exact Ne].
  - destruct fuel as [|k]; [simpl in Hf; lia|].
    cbn [encodable fst snd] in E. apply andb_prop in E as [F E].
    inversion HS as [|x l [Ht Hv] HS']; subst x l. cbn [fst snd] in Ht, Hv.
    cbn [run_bits fst snd] in Hbr. rewrite <- app_assoc in Hbr.
    destruct (Push_Next s it t v _ G Sy Ht Hv F Hbr)
      as (it' & N & V & G' & Sy' & Hbr').
    destruct (IH (Push s t v) it' rest k G' Sy' HS' E Hbr'
                 ltac:(simpl in Hf; lia)) as (itf & C & Ce).
    exists itf. cbn [collect]. rewrite N, C, V. split; [reflexivity | exact Ce].
Qed.

Lemma good_New (t0 : Z) : good (New t0).
Proof.
  unfold good, New. cbn [s_val s_leading s_trailing s_bw s_finished].
  repeat split; try (unfold no_window; lia); try (unfold u64; lia).
  apply pend_ok_WriteBits. unfold pend_ok. simpl. lia.
Qed.

Lemma good_push_all (S : list (Z * Z)) (s : Series) :
  pend_ok (s_bw s) -> s_finished s = false ->
  pend_ok (s_bw (push_all s S)) /\ s_finished (push_all s S) = false.
Proof.
  revert s; induction S as [|x S IH]; intros s Hp Hf; [split; assumption|].
  change (push_all s (x :: S)) with (push_all (Push s (fst x) (snd x)) S).
  apply IH; [apply pend_ok_Push, Hp|].
  destruct (Push_fields s (fst x) (snd x)) as (_ & _ & _ & F & _).
  congruence.
Qed.

(** The bytes of a finished series, as bits: everything written, the
    end-of-stream record, and the padding of the last byte. *)
Lemma bits_of_Finish (s : Series) :
  pend_ok (s_bw s) -> s_finished s = false ->
  exists pad,
    bits_of_bytes (Bytes (Finish s)) = wbits (s_bw s) ++ end_bits ++ pad.
Proof.
  intros Hp Hf. unfold Finish, Bytes. rewrite Hf. cbn [negb s_bw].
  destruct (Flush_bits
              (WriteBit (WriteBits (WriteBits (s_bw s) 15 4) 4294967295 32) Zero)
              Zero) as [pad E].
  { auto using pend_ok_WriteBit, pend_ok_WriteBits. }
  exists pad. rewrite E, wbits_WriteBit, !wbits_WriteBits.
  unfold end_bits. now rewrite <- !app_assoc.
Qed.

(** ** Round trip *)

Lemma NewIterator_encode (t0 : Z) (S : list (Z * Z)) :
  u32 t0 ->
  exists b pad,
    NewIterator (encode t0 S)
    = inr (mkIter t0 0 0 0 0 0 (run_bits (New t0) S ++ end_bits ++ pad)
                  b false None).
Proof.
  intro H0. unfold encode.
  destruct (good_New t0) as (_ & _ & _ & Gp & Gf).
  destruct (good_push_all S (New t0) Gp Gf) as [Hp Hf].
  destruct (bits_of_Finish _ Hp Hf) as [pad E].
  rewrite wbits_push_all in E.
  change (wbits (s_bw (New t0))) with (wbits (WriteBits (NewWriter []) t0 32)) in E.
  rewrite wbits_WriteBits in E.
  change (wbits (NewWriter [])) with (@nil bool) in E. cbn [app] in E.
  rewrite <- app_assoc in E.
  eexists. exists pad. unfold NewIterator, NewReader. rewrite E.
  change (Z.to_nat 32) with 32%nat. read_next.
  assert (E0 : wrap32 (t0 mod 2 ^ 32) = t0) by wrap_arith.
  rewrite E0. reflexivity.
Qed.

(** C1, amended. For every block anchor [t0] and every sample list [S]
    that is [encodable] on the fresh encoder -- each sample pushed while the
    encoder's timestamp field is 0 (the first one in particular) lies less
    than 2^14 after [t0] modulo 2^32, each XOR for which [Push] opens a new
    window has fewer than 32 leading zeros and fewer than 64 significant
    bits, and the timestamp field is not 0 when [Finish] is called --
    pushing [S], finishing and decoding the bytes yields exactly [S], as
    [uint32] timestamps and 64-bit value patterns, with no latched error,
    as soon as the reading loop is allowed more than [length S] calls. *)
Theorem encode_decode_round_trip (t0 : Z) (S : list (Z * Z)) (fuel : nat) :
  u32 t0 -> Forall sample_ok S ->
  encodable (New t0) S = true ->
  (length S < fuel)%nat ->
  decode fuel (encode t0 S) = Some (S, None).
Proof.
  intros H0 HS E Hf.
  destruct (NewIterator_encode t0 S H0) as (b & pad & N).
  unfold decode. rewrite N.
  edestruct (collect_run S (New t0)) as (itf & C & Ce);
    [apply good_New | | exact HS | exact E | | exact Hf | ].
  3: { rewrite C, Ce. reflexivity. }
  - unfold sync, New. cbn. repeat split. unfold no_window. lia.
  - reflexivity.
Qed.

Lemma encode_decode_round_trip_witness :
  u32 0 /\
  Forall sample_ok [(10, 4607182418800017408); (20, 4609434218613702656);
                    (30, 4608308318706860032)] /\
  encodable (New 0) [(10, 4607182418800017408); (20, 4609434218613702656);
                     (30, 4608308318706860032)] = true /\
  (3 < 4)%nat /\
  decode 4 (encode 0 [(10, 4607182418800017408); (20, 4609434218613702656);
                      (30, 4608308318706860032)])
  = Some ([(10, 4607182418800017408); (20, 4609434218613702656);
           (30, 4608308318706860032)], None).
Proof.
  assert (H0 : u32 0) by (unfold u32; lia).
  assert (HS : Forall sample_ok
                 [(10, 4607182418800017408); (20, 4609434218613702656);
                  (30, 4608308318706860032)])
    by (repeat constructor; unfold u32, u64; simpl; lia).
  assert (E : encodable (New 0)
                [(10, 4607182418800017408); (20, 4609434218613702656);
                 (30, 4608308318706860032)] = true) by (vm_compute; reflexivity).
  assert (Hf : (3 < 4)%nat) by lia.
  split; [exact H0|]. split; [exact HS|]. split; [exact E|].
  split; [exact Hf|].
  apply (encode_decode_round_trip 0 _ 4 H0 HS E Hf).
Defined.

(** C1 as claimed fails: on a fresh encoder anchored at 0, the samples
    (0, 0), (0, 0), (20000, 0) meet the claim's hypotheses, yet the third is
    written as a first-point record, whose 14-bit field cannot hold 20000,
    and is read back with timestamp 3616. *)
Lemma round_trip_fails_after_timestamp_zero :
  ~ round_trip_as_claimed 0 [(0, 0); (0, 0); (20000, 0)].
Proof.
  unfold round_trip_as_claimed. intro H.
  assert (D : decode 4 (encode 0 [(0, 0); (0, 0); (20000, 0)])
              = Some ([(0, 0); (0, 0); (20000, 0)], None)).
  { apply H.
    - unfold u32; lia.
    - repeat constructor; unfold u32, u64; simpl; lia.
    - vm_compute. reflexivity.
    - simpl. lia.
    - simpl. lia. }
  vm_compute in D. discriminate D.
Qed.

(** ** The empty block *)

(** C2. The code on the empty block [New 1000; Finish]: the first [Next]
    does return false, but it has read the end-of-stream record as a
    first-point record (the timestamp field is 0), the 64-bit read has run
    past the bytes, and the error is latched: [Err] is not empty. *)
Theorem empty_block_latches_error :
  encode 1000 [] = [0; 0; 3; 232; 255; 255; 255; 255; 240]
  /\ exists it it',
      NewIterator (encode 1000 []) = inr it
      /\ Next it = (false, it')
      /\ Err it' = Some UnexpectedEnd
      /\ it_finished it' = false.
Proof.
  split; [vm_compute; reflexivity|].
  do 2 eexists. split; [vm_compute; reflexivity|].
  split; [vm_compute; reflexivity|]. split; reflexivity.
Qed.

(** ** After [Finish] *)

(** C3 as claimed fails: [Push] does not look at [finished]; a sample
    pushed on the finished empty block anchored at 0 appends nine bytes. *)
Lemma push_after_finish_changes_bytes :
  ~ finished_is_immutable_as_claimed (Finish (New 0)).
Proof.
  intro H. destruct (H eq_refl) as [_ P].
  destruct (P 1 0) as [_ B]. vm_compute in B. discriminate B.
Qed.

(** C3, amended. On a finished encoder every further [Finish] leaves the
    whole state, the bytes included, as it is. ([Push] is not guarded by
    [finished].) *)
Theorem finish_after_finish_unchanged (s : Series) :
  s_finished s = true ->
  Finish s = s /\ Bytes (Finish s) = Bytes s.
Proof.
  intro H. unfold Finish. rewrite H. split; reflexivity.
Qed.

Lemma finish_after_finish_unchanged_witness :
  s_finished (Finish (New 1000)) = true
  /\ Finish (Finish (New 1000)) = Finish (New 1000)
  /\ Bytes (Finish (Finish (New 1000))) = Bytes (Finish (New 1000)).
Proof.
  split; [reflexivity|].
  apply (finish_after_finish_unchanged (Finish (New 1000))). reflexivity.
Defined.

(** C6. [Finish] twice is [Finish] once, on every encoder state: same
    state, same bytes. *)
Theorem finish_idempotent (s : Series) :
  Finish (Finish s) = Finish s
  /\ Bytes (Finish (Finish s)) = Bytes (Finish s).
Proof.
  assert (E : Finish (Finish s) = Finish s).
  { unfold Finish at 1. destruct (s_finished s) eqn:F.
    - unfold Finish. rewrite F. cbn [negb]. rewrite F. reflexivity.
    - unfold Finish. rewrite F. reflexivity. }
  rewrite E. split; reflexivity.
Qed.

(** ** The leading-zeros field *)

(** C4. The code on the samples (1, 0), (2, 2^31) pushed on [New 0]: the
    XOR 2^31 has 32 leading zeros; [Push] opens a new window and writes the
    low five bits of 32, that is 00000, not 31, and the count of significant
    bits of the unclamped window, 1. The decoder reads a window of no
    leading and 63 trailing zeros and yields the value 2^63. *)
Theorem leading_field_not_clamped :
  Clz (Z.lxor 2147483648 0) = 32
  /\ push_bits (Push (New 0) 1 0) 2 2147483648
     = [false] ++ [true; true]
         ++ [false; false; false; false; false]
         ++ [false; false; false; false; false; true]
         ++ [true]
  /\ decode 3 (encode 0 [(1, 0); (2, 2147483648)])
     = Some ([(1, 0); (2, 9223372036854775808)], None).
Proof.
  split; [reflexivity|]. split; vm_compute; reflexivity.
Qed.

(** ** The first-point test *)

(** C5 as claimed fails: after a first push with timestamp 0 the second
    push writes the 78 bits of a first-point record. *)
Lemma second_push_after_zero_is_first_record :
  push_bits (Push (New 0) 0 0) 60 0 = first_record (Push (New 0) 0 0) 60 0
  /\ ~ second_push_as_claimed 0 0 60 0.
Proof.
  split; [vm_compute; reflexivity|].
  unfold second_push_as_claimed. vm_compute. discriminate.
Qed.

(** C5, amended. The "no sample yet" state is the timestamp field being 0:
    after a first push with timestamp [t1] on a fresh encoder, the second
    push writes a delta-of-delta and value record exactly when [t1] is not
    0, and another first-point record when [t1] is 0. *)
Theorem second_push_record (t0 t1 v1 t v : Z) :
  push_bits (Push (New t0) t1 v1) t v =
    if t1 =? 0 then first_record (Push (New t0) t1 v1) t v
    else next_record (Push (New t0) t1 v1) t v.
Proof.
  rewrite push_bits_cases.
  destruct (Push_fields (New t0) t1 v1) as (_ & -> & _).
  reflexivity.
Qed.

(** ** Tier selection *)




(** ** The sign rule of the payload *)

Lemma read_value_keeps_time (it : Iter) :
  it_tDelta (snd (read_value it)) = it_tDelta it
  /\ it_t (snd (read_value it)) = it_t it.
Proof.
  destruct it as [t0 tD t v l tr br b fin err].
  unfold read_value, fail.
  repeat first
    [ split; reflexivity
    | match goal with
      | |- context [ReadBit ?r] => destruct (ReadBit r) as [[?|[]] ?]
      | |- context [ReadBits ?r ?n] => destruct (ReadBits r n) as [[?|?] ?]
      end;
      cbn [negb snd set_br set_err set_leading set_trailing set_val
           it_val it_leading it_trailing it_br it_t0 it_tDelta it_t it_b
           it_finished it_err] ].
Qed.

Lemma Next_payload (it : Iter) (sz u : Z) (rest : list bool) :
  it_err it = None -> it_finished it = false -> it_t it <> 0 ->
  In sz [7; 9; 12] -> 0 <= u < 2 ^ sz ->
  it_br it = tier_prefix sz ++ low_bits (Z.to_nat sz) u ++ rest ->
  it_tDelta (snd (Next it))
  = wrap32 (it_tDelta it + (if u >? 2 ^ (sz - 1) then u - 2 ^ sz else u)).
Proof.
  destruct it as [t0 tD t v l tr br b fin err];
    cbn [it_err it_finished it_t it_br it_tDelta].
  intros -> -> Ht Hsz Hu ->. unfold Next.
  cbn [it_err it_finished it_t it_br orb].
  destruct (Z.eqb_spec t 0) as [|_]; [contradiction|].
  assert (M : u mod 2 ^ sz = u) by (apply Z.mod_small; exact Hu).
  destruct Hsz as [<-|[<-|[<-|[]]]]; cbn [tier_prefix Z.eqb Pos.eqb app].
  - change (Z.to_nat 7) with 7%nat. rewrite read_prefix_2.
    cbn [Z.eqb Pos.eqb negb it_br set_br].
    read_next. rewrite M. unfold advance.
    rewrite (proj1 (read_value_keeps_time _)).
    cbn [set_time set_br it_tDelta].
    change (Z.shiftl 1 (7 - 1)) with 64. change (Z.shiftl 1 7) with 128.
    change (2 ^ (7 - 1)) with 64. change (2 ^ 7) with 128 in *.
    destruct (Z.gtb_spec u 64); wrap_arith.
  - change (Z.to_nat 9) with 9%nat. rewrite read_prefix_6.
    cbn [Z.eqb Pos.eqb negb it_br set_br].
    read_next. rewrite M. unfold advance.
    rewrite (proj1 (read_value_keeps_time _)).
    cbn [set_time set_br it_tDelta].
    change (Z.shiftl 1 (9 - 1)) with 256. change (Z.shiftl 1 9) with 512.
    change (2 ^ (9 - 1)) with 256. change (2 ^ 9) with 512 in *.
    destruct (Z.gtb_spec u 256); wrap_arith.
  - change (Z.to_nat 12) with 12%nat. rewrite read_prefix_14.
    cbn [Z.eqb Pos.eqb negb it_br set_br].
    read_next. rewrite M. unfold advance.
    rewrite (proj1 (read_value_keeps_time _)).
    cbn [set_time set_br it_tDelta].
    change (Z.shiftl 1 (12 - 1)) with 2048. change (Z.shiftl 1 12) with 4096.
    change (2 ^ (12 - 1)) with 2048. change (2 ^ 12) with 4096 in *.
    destruct (Z.gtb_spec u 2048); wrap_arith.
Qed.

(** C8. The decoder subtracts 2^sz from a payload [u] of [sz] bits, [sz]
    one of 7, 9, 12, exactly when [u] is strictly greater than 2^(sz-1).
    The encoder writes [dod = 64] in the 7-bit tier as 1000000, which is
    read back as +64, and [dod = -64] in the 9-bit tier as 111000000, which
    is read back as -64. *)
Theorem signed_payload_rule :
  (forall (it : Iter) (sz u : Z) (rest : list bool),
      it_err it = None -> it_finished it = false -> it_t it <> 0 ->
      In sz [7; 9; 12] -> 0 <= u < 2 ^ sz ->
      it_br it = tier_prefix sz ++ low_bits (Z.to_nat sz) u ++ rest ->
      it_tDelta (snd (Next it))
      = wrap32 (it_tDelta it
                + (if u >? 2 ^ (sz - 1) then u - 2 ^ sz else u)))
  /\ (forall (s : Series) (t v : Z),
         s_t s <> 0 -> dod_of s t = 64 ->
         push_bits s t v
         = [true; false] ++ [true; false; false; false; false; false; false]
             ++ xor_bits (s_leading s) (s_trailing s) (Z.lxor v (s_val s)))
  /\ (forall (s : Series) (t v : Z),
         s_t s <> 0 -> dod_of s t = -64 ->
         push_bits s t v
         = [true; true; false]
             ++ [true; true; true; false; false; false; false; false; false]
             ++ xor_bits (s_leading s) (s_trailing s) (Z.lxor v (s_val s)))
  /\ (forall (it : Iter) (rest : list bool),
         it_err it = None -> it_finished it = false -> it_t it <> 0 ->
         it_br it
         = [true; false] ++ [true; false; false; false; false; false; false]
             ++ rest ->
         it_tDelta (snd (Next it)) = wrap32 (it_tDelta it + 64))
  /\ (forall (it : Iter) (rest : list bool),
         it_err it = None -> it_finished it = false -> it_t it <> 0 ->
         it_br it
         = [true; true; false]
             ++ [true; true; true; false; false; false; false; false; false]
             ++ rest ->
         it_tDelta (snd (Next it)) = wrap32 (it_tDelta it - 64)).
Proof.
  split; [exact Next_payload|].
  split.
  { intros s t v Ht E. rewrite push_bits_cases.
    destruct (Z.eqb_spec (s_t s) 0) as [|_]; [contradiction|].
    fold (dod_of s t). rewrite E. reflexivity. }
  split.
  { intros s t v Ht E. rewrite push_bits_cases.
    destruct (Z.eqb_spec (s_t s) 0) as [|_]; [contradiction|].
    fold (dod_of s t). rewrite E. reflexivity. }
  split.
  - intros it rest He Hf Ht Hbr.
    apply (Next_payload it 7 64 rest He Hf Ht); [simpl; auto | lia | exact Hbr].
  - intros it rest He Hf Ht Hbr.
    apply (Next_payload it 9 448 rest He Hf Ht);
      [simpl; auto | lia | exact Hbr].
Qed.

Lemma signed_payload_rule_witness :
  it_tDelta
    (snd (Next (mkIter 0 60 60 0 0 0
                       (tier_prefix 7 ++ low_bits 7 65 ++ [false])
                       [] false None)))
  = wrap32 (60 + (if 65 >? 2 ^ (7 - 1) then 65 - 2 ^ 7 else 65))
  /\ push_bits (Push (Push (New 0) 60 0) 120 0) 244 0
     = [true; false] ++ [true; false; false; false; false; false; false]
         ++ xor_bits no_window 0 (Z.lxor 0 0).
Proof.
  split.
  - apply (proj1 signed_payload_rule
             (mkIter 0 60 60 0 0 0 (tier_prefix 7 ++ low_bits 7 65 ++ [false])
                     [] false None) 7 65 [false]);
      try reflexivity; [discriminate | simpl; auto | lia].
  - apply (proj1 (proj2 signed_payload_rule)
             (Push (Push (New 0) 60 0) 120 0) 244 0);
      [discriminate | reflexivity].
Defined.


(** ** The latched error *)

Ltac read_cases :=
  repeat first
    [ solve [unfold outcome; cbn; auto 6]
    | match goal with
      | |- context [ReadBit ?r] => destruct (ReadBit r) as [[[]|[]] ?]
      | |- context [ReadBits ?r ?n] => destruct (ReadBits r n) as [[[]|?] ?]
      | |- context [read_prefix ?n ?d ?r] =>
          destruct (read_prefix n d r) as [[[]|?] ?]
      | |- context [if ?c then _ else _] => destruct c
      end;
      cbn [negb fst snd set_br set_err set_leading set_trailing set_val
           set_time set_finished
           it_val it_leading it_trailing it_br it_t0 it_tDelta it_t it_b
           it_finished it_err] ].

Lemma read_value_outcome (it : Iter) :
  it_err it = None -> it_finished it = false ->
  outcome (fst (read_value it)) (snd (read_value it)).
Proof.
  destruct it as [t0 tD t v l tr br b fin err];
    cbn [it_err it_finished]; intros -> ->.
  unfold read_value, fail. read_cases.
Qed.

Lemma Next_outcome (it : Iter) :
  it_err it = None -> it_finished it = false ->
  outcome (fst (Next it)) (snd (Next it)).
Proof.
  destruct it as [t0 tD t v l tr br b fin err];
    cbn [it_err it_finished]; intros -> ->.
  unfold Next, advance, fail.
  cbn [orb it_val it_leading it_trailing it_br it_t0 it_tDelta it_t it_b
       it_finished it_err].
  destruct (t =? 0).
  - read_cases.
  - destruct (read_prefix 4 0 br) as [[[]|d] r];
      [unfold outcome; cbn; auto 6|].
    cbn [set_br].
    destruct (d =? 15).
    + destruct (ReadBits r 32) as [[[]|bits] r'];
        [unfold outcome; cbn; auto 6|].
      destruct (bits =? 4294967295); [unfold outcome; cbn; auto 6|].
      apply read_value_outcome; reflexivity.
    + destruct (negb _).
      * destruct (ReadBits r _) as [[[]|bits] r'];
          [unfold outcome; cbn; auto 6|].
        apply read_value_outcome; reflexivity.
      * apply read_value_outcome; reflexivity.
Qed.

Lemma Next_latched (it : Iter) (e : error) :
  it_err it = Some e -> Next it = (false, it).
Proof. intro H. unfold Next. rewrite H. reflexivity. Qed.




(** ** The decoder's first-point test *)

(** C10. [Next] takes the first-point path whenever the timestamp field is
    0, whatever has been read before: it consumes 14 + 64 bits as a delta
    from [t0] and a raw value. Two blocks written by [Series] show the
    effect, both anchored at 2^32 - 1 with a first sample at timestamp 0
    ([t0 + tDelta] wraps to 0).
    - Samples (0, 5): after the sample, the bits to come are the
      end-of-stream record; [Next] reads its first 14 bits as a delta, runs
      out of bits for the value and latches an error, where the
      delta-of-delta path would have ended the stream.
    - Samples (0, 5), (20000, 6): the second [Next] reads 78 bits and
      yields timestamp 3616; the encoder holds 20000 and delta 20001, the
      decoder 3616 and 3617. *)
Theorem timestamp_zero_reset :
  (forall (it : Iter) (d v : Z) (rest : list bool),
      it_err it = None -> it_finished it = false -> it_t it = 0 ->
      0 <= d < 2 ^ 14 -> u64 v ->
      it_br it = low_bits 14 d ++ low_bits 64 v ++ rest ->
      Next it
      = (true, mkIter (it_t0 it) d (wrap32 (it_t0 it + d)) v (it_leading it)
                      (it_trailing it) rest (it_b it) false None))
  /\ (exists it0 it1 it2 pad,
         NewIterator (encode 4294967295 [(0, 5)]) = inr it0
         /\ Next it0 = (true, it1) /\ Values it1 = (0, 5)
         /\ it_br it1 = end_bits ++ pad
         /\ Next it1 = (false, it2)
         /\ it_tDelta it2 = 16383
         /\ it_finished it2 = false /\ Err it2 = Some UnexpectedEnd)
  /\ (exists it0 it1 it2,
         NewIterator (encode 4294967295 [(0, 5); (20000, 6)]) = inr it0
         /\ Next it0 = (true, it1) /\ Values it1 = (0, 5)
         /\ Next it1 = (true, it2)
         /\ it_br it1 = low_bits 14 3617 ++ low_bits 64 6 ++ it_br it2
         /\ Values it2 = (3616, 6) /\ it_tDelta it2 = 3617
         /\ s_t (push_all (New 4294967295) [(0, 5); (20000, 6)]) = 20000
         /\ s_tDelta (push_all (New 4294967295) [(0, 5); (20000, 6)]) = 20001).
Proof.
  split.
  { intros it d v rest He Hf Ht Hd Hv Hbr.
    destruct it as [t0 tD t p l tr br b fin err].
    cbn [it_val it_leading it_trailing it_br it_t0 it_tDelta it_t it_b
         it_finished it_err] in *.
    subst. unfold Next.
    cbn [it_val it_leading it_trailing it_br it_t0 it_tDelta it_t it_b
         it_finished it_err orb Z.eqb].
    read_next. cbn [set_br set_time it_br]. read_next.
    unfold set_val, set_br, set_time.
    cbn [it_val it_leading it_trailing it_br it_t0 it_tDelta it_t it_b
         it_finished it_err].
    assert (Ed : d mod 2 ^ 14 = d) by (apply Z.mod_small; exact Hd).
    assert (Ev : v mod 2 ^ 64 = v) by (apply Z.mod_small; exact Hv).
    assert (Ew : wrap32 d = d) by wrap_arith.
    rewrite Ed, Ev, Ew. reflexivity. }
  split.
  - do 3 eexists. exists [false; false; false; false; false].
    split; [vm_compute; reflexivity|].
    split; [vm_compute; reflexivity|]. split; [reflexivity|].
    split; [vm_compute; reflexivity|].
    split; [vm_compute; reflexivity|]. repeat split.
  - do 3 eexists.
    split; [vm_compute; reflexivity|].
    split; [vm_compute; reflexivity|]. split; [reflexivity|].
    split; [vm_compute; reflexivity|].
    split; [vm_compute; reflexivity|]. repeat split.
Qed.

Lemma timestamp_zero_reset_witness :
  Next (mkIter 4294967295 1 0 5 0 0
               (low_bits 14 3617 ++ low_bits 64 6 ++ [true]) [] false None)
  = (true, mkIter 4294967295 3617 (wrap32 (4294967295 + 3617)) 6 0 0 [true]
                  [] false None).
Proof.
  apply (proj1 timestamp_zero_reset
           (mkIter 4294967295 1 0 5 0 0
                   (low_bits 14 3617 ++ low_bits 64 6 ++ [true]) [] false None)
           3617 6 [true]);
    try reflexivity; [lia | unfold u64; lia].
Defined.

(** * Further properties *)

(** ** The block header *)

Lemma bits_value_app (a b : list bool) (acc : Z) :
  bits_value acc (a ++ b) = bits_value (bits_value acc a) b.
Proof.
  revert acc; induction a as [|x a IH]; intro acc; [reflexivity|].
  cbn [app bits_value]. apply IH.
Qed.

Lemma low_bits_shiftr (n : nat) (x k : Z) :
  0 <= k -> low_bits n (Z.shiftr x k) = map (fun i => Z.testbit x (k + i))
                                            (map Z.of_nat (rev (seq 0 n))).
Proof.
  intro Hk. induction n as [|m IH]; [reflexivity|].
  rewrite seq_S, rev_app_distr. cbn [low_bits rev app map Nat.add].
  rewrite IH. f_equal. rewrite Z.shiftr_spec by lia. f_equal. lia.
Qed.

Lemma byte_at (x k : Z) :
  0 <= k ->
  byte_of_bits (map (fun i => Z.testbit x (k + i)) [7; 6; 5; 4; 3; 2; 1; 0])
  = (x / 2 ^ k) mod 2 ^ 8.
Proof.
  intro Hk. unfold byte_of_bits.
  change [7; 6; 5; 4; 3; 2; 1; 0] with (map Z.of_nat (rev (seq 0 8))).
  rewrite <- low_bits_shiftr by exact Hk.
  rewrite bits_value_low_bits, Z.shiftr_div_pow2 by exact Hk.
  reflexivity.
Qed.

Lemma New_writer (t0 : Z) : s_bw (New t0) = mkWriter (be32 t0) [].
Proof.
  unfold New, WriteBits. cbn [s_bw]. change (Z.to_nat 32) with 32%nat.
  cbv - [Z.testbit byte_of_bits be32]. unfold be32.
  rewrite <- !byte_at by lia. reflexivity.
Qed.

(** ** The buffer only grows *)

Lemma extends_refl (w : BitWriter) : extends w w.
Proof. exists []. now rewrite app_nil_r. Qed.

Lemma extends_trans (a b c : BitWriter) :
  extends a b -> extends b c -> extends a c.
Proof.
  intros [m1 E1] [m2 E2]. exists (m1 ++ m2).
  now rewrite E2, E1, app_assoc.
Qed.

Lemma extends_WriteBit (w : BitWriter) (b : bool) : extends w (WriteBit w b).
Proof.
  unfold extends, WriteBit.
  destruct (length (w_pend w ++ [b]) =? 8)%nat; cbn [w_out].
  - eexists. reflexivity.
  - exists []. now rewrite app_nil_r.
Qed.

Lemma extends_write_list (bs : list bool) (w : BitWriter) :
  extends w (write_list w bs).
Proof.
  revert w; induction bs as [|b bs IH]; intro w; [apply extends_refl|].
  change (write_list w (b :: bs)) with (write_list (WriteBit w b) bs).
  eapply extends_trans; [apply extends_WriteBit | apply IH].
Qed.

Lemma extends_WriteBits (w : BitWriter) (u n : Z) :
  extends w (WriteBits w u n).
Proof. apply extends_write_list. Qed.

Lemma extends_write_dod (w : BitWriter) (dod : Z) :
  extends w (write_dod w dod).
Proof.
  unfold write_dod.
  repeat match goal with |- context [if ?c then _ else _] => destruct c end;
    repeat first [ apply extends_WriteBit | apply extends_WriteBits
                 | eapply extends_trans; [|apply extends_WriteBits] ].
Qed.

Lemma extends_write_xor (w : BitWriter) (l tr x : Z) :
  extends w (fst (fst (write_xor w l tr x))).
Proof.
  unfold write_xor.
  repeat match goal with |- context [if ?c then _ else _] => destruct c end;
    cbn [fst];
    repeat first [ apply extends_WriteBit
                 | eapply extends_trans; [|apply extends_WriteBits]
                 | eapply extends_trans; [|apply extends_WriteBit] ].
Qed.

Lemma extends_Push (s : Series) (t v : Z) : extends (s_bw s) (s_bw (Push s t v)).
Proof.
  unfold Push. destruct (s_t s =? 0).
  - cbn [s_bw].
    eapply extends_trans; [apply extends_WriteBits | apply extends_WriteBits].
  - destruct (write_xor _ _ _ _) as [[w l] tr] eqn:E. cbn [s_bw].
    change w with (fst (fst (w, l, tr))). rewrite <- E.
    eapply extends_trans; [apply extends_write_dod | apply extends_write_xor].
Qed.

Lemma extends_Finish (s : Series) : extends (s_bw s) (s_bw (Finish s)).
Proof.
  unfold Finish. destruct (s_finished s); cbn [negb]; [apply extends_refl|].
  cbn [s_bw]. unfold Flush.
  eapply extends_trans; [|apply extends_write_list].
  eapply extends_trans; [|apply extends_WriteBit].
  eapply extends_trans; [apply extends_WriteBits | apply extends_WriteBits].
Qed.

Lemma extends_push_all (S : list (Z * Z)) (s : Series) :
  extends (s_bw s) (s_bw (push_all s S)).
Proof.
  revert s; induction S as [|x S IH]; intro s; [apply extends_refl|].
  change (push_all s (x :: S)) with (push_all (Push s (fst x) (snd x)) S).
  eapply extends_trans; [apply extends_Push | apply IH].
Qed.

(** X2. The buffer is append-only: the bytes returned by [Bytes] before a
    [Push], a run of pushes or a [Finish] are a prefix of the bytes returned
    after it, on every encoder state. Bytes handed out earlier -- to an
    iterator made in the middle of a block, say -- stay valid. *)
Theorem Bytes_append_only (s : Series) :
  (forall t v, exists more, Bytes (Push s t v) = Bytes s ++ more)
  /\ (forall S, exists more, Bytes (push_all s S) = Bytes s ++ more)
  /\ (exists more, Bytes (Finish s) = Bytes s ++ more).
Proof.
  split; [intros t v; apply extends_Push|].
  split; [intro S; apply extends_push_all | apply extends_Finish].
Qed.

(** X1. The first four bytes of a block are the anchor [t0], most
    significant byte first, from [New] on and whatever is pushed, before
    and after [Finish]. *)
Theorem header_bytes (t0 : Z) (S : list (Z * Z)) :
  Bytes (New t0) = be32 t0
  /\ firstn 4 (Bytes (push_all (New t0) S)) = be32 t0
  /\ firstn 4 (Bytes (Finish (push_all (New t0) S))) = be32 t0.
Proof.
  assert (H0 : Bytes (New t0) = be32 t0)
    by (unfold Bytes; rewrite New_writer; reflexivity).
  destruct (extends_push_all S (New t0)) as [m1 E1].
  destruct (extends_Finish (push_all (New t0) S)) as [m2 E2].
  fold (Bytes (New t0)) in E1. fold (Bytes (push_all (New t0) S)) in E1, E2.
  fold (Bytes (Finish (push_all (New t0) S))) in E2.
  split; [exact H0|]. rewrite E2, E1, H0. split; reflexivity.
Qed.

(** ** Opening a block *)

Lemma length_bits_of_bytes (b : list Z) :
  length (bits_of_bytes b) = (8 * length b)%nat.
Proof.
  induction b as [|x b IH]; [reflexivity|].
  cbn [bits_of_bytes]. rewrite length_app, IH.
  unfold bits_of_byte. rewrite length_low_bits. simpl length. lia.
Qed.

Lemma read_n_too_short (n : nat) (r : list bool) (acc : Z) :
  (length r < n)%nat -> read_n n acc r = (inl UnexpectedEnd, []).
Proof.
  revert r acc; induction n as [|k IH]; intros r acc H; [lia|].
  destruct r as [|b r]; [reflexivity|].
  cbn [read_n ReadBit]. apply IH. simpl in H. lia.
Qed.

Lemma byte_small (b : Z) : byte_ok b -> b mod 2 ^ Z.of_nat 8 = b.
Proof. intro H. apply Z.mod_small. exact H. Qed.

Lemma NewIterator_short (b : list Z) :
  (length b < 4)%nat -> NewIterator b = inl UnexpectedEnd.
Proof.
  intro H. unfold NewIterator, NewReader, ReadBits.
  rewrite read_n_too_short; [reflexivity|].
  rewrite length_bits_of_bytes. change (Z.to_nat 32) with 32%nat. lia.
Qed.

Lemma NewIterator_four (b0 b1 b2 b3 : Z) (rest : list Z) :
  byte_ok b0 -> byte_ok b1 -> byte_ok b2 -> byte_ok b3 ->
  NewIterator (b0 :: b1 :: b2 :: b3 :: rest)
  = inr (mkIter (b0 * 2 ^ 24 + b1 * 2 ^ 16 + b2 * 2 ^ 8 + b3)
                0 0 0 0 0 (bits_of_bytes rest)
                (b0 :: b1 :: b2 :: b3 :: rest) false None).
Proof.
  intros H0 H1 H2 H3.
  unfold NewIterator, NewReader, ReadBits.
  change (Z.to_nat 32) with 32%nat. cbn [bits_of_bytes].
  rewrite !app_assoc.
  rewrite read_n_app
    by (rewrite !length_app; unfold bits_of_byte;
        rewrite !length_low_bits; reflexivity).
  rewrite !bits_value_app. unfold bits_of_byte.
  rewrite !bits_value_low_bits, !byte_small by assumption.
  f_equal. f_equal.
  unfold byte_ok in *. change (2 ^ 8) with 256 in *.
  change (2 ^ Z.of_nat 8) with 256. unfold wrap32.
  change (2 ^ 32) with 4294967296. change (2 ^ 24) with 16777216.
  change (2 ^ 16) with 65536.
  rewrite Z.mod_small; lia.
Qed.

(** X3. [NewIterator] fails, with the reader's error, on every input of
    fewer than four bytes. On a longer input it returns an iterator whose
    [t0] is the big-endian number of the first four bytes, whose reader
    stands right behind them, and whose other fields are zero: no error,
    not finished, timestamp 0. *)
Theorem NewIterator_header (b : list Z) :
  ((length b < 4)%nat -> NewIterator b = inl UnexpectedEnd)
  /\ (forall b0 b1 b2 b3 rest,
         b = b0 :: b1 :: b2 :: b3 :: rest ->
         byte_ok b0 -> byte_ok b1 -> byte_ok b2 -> byte_ok b3 ->
         NewIterator b
         = inr (mkIter (b0 * 2 ^ 24 + b1 * 2 ^ 16 + b2 * 2 ^ 8 + b3)
                       0 0 0 0 0 (bits_of_bytes rest) b false None)).
Proof.
  split; [apply NewIterator_short|].
  intros b0 b1 b2 b3 rest -> H0 H1 H2 H3. now apply NewIterator_four.
Qed.

Lemma NewIterator_header_witness :
  (2 < 4)%nat /\ NewIterator [0; 0] = inl UnexpectedEnd
  /\ byte_ok 0 /\ byte_ok 0 /\ byte_ok 3 /\ byte_ok 232
  /\ NewIterator [0; 0; 3; 232; 255]
     = inr (mkIter (0 * 2 ^ 24 + 0 * 2 ^ 16 + 3 * 2 ^ 8 + 232)
                   0 0 0 0 0 (bits_of_bytes [255]) [0; 0; 3; 232; 255]
                   false None).
Proof.
  assert (B0 : byte_ok 0) by (unfold byte_ok; lia).
  assert (B3 : byte_ok 3) by (unfold byte_ok; lia).
  assert (B232 : byte_ok 232) by (unfold byte_ok; lia).
  assert (L : (length [0; 0] < 4)%nat) by (simpl; lia).
  split; [lia|].
  split; [exact (proj1 (NewIterator_header [0; 0]) L)|].
  split; [exact B0|]. split; [exact B0|]. split; [exact B3|].
  split; [exact B232|].
  exact (proj2 (NewIterator_header [0; 0; 3; 232; 255])
               0 0 3 232 [255] eq_refl B0 B0 B3 B232).
Defined.

Lemma be32_value (x : Z) :
  u32 x ->
  (x / 2 ^ 24) mod 2 ^ 8 * 2 ^ 24 + (x / 2 ^ 16) mod 2 ^ 8 * 2 ^ 16
  + (x / 2 ^ 8) mod 2 ^ 8 * 2 ^ 8 + (x / 2 ^ 0) mod 2 ^ 8 = x.
Proof.
  unfold u32. intro H.
  change (2 ^ 32) with 4294967296 in H. change (2 ^ 24) with 16777216.
  change (2 ^ 16) with 65536. change (2 ^ 8) with 256. change (2 ^ 0) with 1.
  Z.div_mod_to_equations. lia.
Qed.

Lemma Iter_on_header (s : Series) (t0 : Z) (more : list Z) :
  u32 t0 -> Bytes s = be32 t0 ++ more ->
  Series_Iter s
  = Some (mkIter t0 0 0 0 0 0 (bits_of_bytes more) (Bytes s) false None).
Proof.
  intros H0 E. unfold Series_Iter.
  assert (B : forall k, byte_ok ((t0 / 2 ^ k) mod 2 ^ 8))
    by (intro k; apply Z.mod_pos_bound; lia).
  rewrite E at 1. unfold be32. cbn [app].
  rewrite (NewIterator_four _ _ _ _ more (B 24) (B 16) (B 8) (B 0)).
  fold (be32 t0). change (be32 t0 ++ more) with
    ((t0 / 2 ^ 24) mod 2 ^ 8 :: (t0 / 2 ^ 16) mod 2 ^ 8
       :: (t0 / 2 ^ 8) mod 2 ^ 8 :: (t0 / 2 ^ 0) mod 2 ^ 8 :: more) in E.
  rewrite <- E.
  rewrite be32_value by exact H0. reflexivity.
Qed.

(** X4. [Iter] on a series made by [New] and any pushes, finished or not,
    never returns nil: the four header bytes are always in the buffer. The
    iterator starts with the series' [t0], timestamp 0, no error, and reads
    the complete bytes behind the header. *)
Theorem Iter_of_block (t0 : Z) (S : list (Z * Z)) :
  u32 t0 ->
  (exists more,
      Bytes (push_all (New t0) S) = be32 t0 ++ more
      /\ Series_Iter (push_all (New t0) S)
         = Some (mkIter t0 0 0 0 0 0 (bits_of_bytes more)
                        (Bytes (push_all (New t0) S)) false None))
  /\ (exists more,
         Bytes (Finish (push_all (New t0) S)) = be32 t0 ++ more
         /\ Series_Iter (Finish (push_all (New t0) S))
            = Some (mkIter t0 0 0 0 0 0 (bits_of_bytes more)
                           (Bytes (Finish (push_all (New t0) S))) false None)).
Proof.
  intro H0.
  assert (HN : Bytes (New t0) = be32 t0)
    by (unfold Bytes; rewrite New_writer; reflexivity).
  destruct (extends_push_all S (New t0)) as [m1 E1].
  destruct (extends_Finish (push_all (New t0) S)) as [m2 E2].
  fold (Bytes (New t0)) in E1. fold (Bytes (push_all (New t0) S)) in E1, E2.
  fold (Bytes (Finish (push_all (New t0) S))) in E2.
  rewrite HN in E1. rewrite E1, <- app_assoc in E2.
  split.
  - exists m1. split; [exact E1 | now apply Iter_on_header].
  - exists (m1 ++ m2). split; [exact E2 | now apply Iter_on_header].
Qed.

Lemma Iter_of_block_witness :
  u32 1000
  /\ exists more,
      Bytes (push_all (New 1000) [(1060, 5)]) = be32 1000 ++ more
      /\ Series_Iter (push_all (New 1000) [(1060, 5)])
         = Some (mkIter 1000 0 0 0 0 0 (bits_of_bytes more)
                        (Bytes (push_all (New 1000) [(1060, 5)])) false None).
Proof.
  assert (H0 : u32 1000) by (unfold u32; lia).
  split; [exact H0|].
  exact (proj1 (Iter_of_block 1000 [(1060, 5)] H0)).
Defined.

(** ** No record looks like the end of the stream *)

Lemma read_value_keeps_finished (it : Iter) :
  it_finished (snd (read_value it)) = it_finished it.
Proof.
  destruct it as [t0 tD t v l tr br b fin err].
  unfold read_value, fail.
  repeat first
    [ reflexivity
    | match goal with
      | |- context [ReadBit ?r] => destruct (ReadBit r) as [[?|[]] ?]
      | |- context [ReadBits ?r ?n] => destruct (ReadBits r n) as [[?|?] ?]
      end;
      cbn [negb snd set_br set_err set_leading set_trailing set_val
           it_val it_leading it_trailing it_br it_t0 it_tDelta it_t it_b
           it_finished it_err] ].
Qed.

(** X5. A record written by [Push] is never taken for the end-of-stream
    record: a live iterator on the same path as the encoder (the same
    timestamp field) that reads the bits of one [Push], whatever follows
    them, is not finished afterwards. The 32-bit tier never carries the
    payload 0xFFFFFFFF, since [dod = -1] goes to the 7-bit tier. *)
Theorem record_never_ends_stream
        (s : Series) (it : Iter) (t v : Z) (rest : list bool) :
  it_err it = None -> it_finished it = false -> it_t it = s_t s ->
  it_br it = push_bits s t v ++ rest ->
  it_finished (snd (Next it)) = false.
Proof.
  intros He Hf Ht Hbr. rewrite push_bits_cases in Hbr.
  destruct (Z.eqb_spec (s_t s) 0) as [Z0|Z0].
  - destruct it as [t0 tD ti p l tr br b fin err].
    cbn [it_err it_finished it_t it_br] in *. subst.
    unfold Next, fail. rewrite Z0.
    cbn [it_err it_finished it_t it_br orb Z.eqb].
    repeat match goal with
           | |- context [ReadBits ?r ?n] =>
               destruct (ReadBits r n) as [[?|?] ?]
           end; reflexivity.
  - rewrite <- app_assoc in Hbr.
    rewrite (Next_dod it _ _ He Hf ltac:(congruence) (int32_range _) Hbr).
    unfold advance. rewrite read_value_keeps_finished.
    destruct it; exact Hf.
Qed.

Lemma record_never_ends_stream_witness :
  it_err (mkIter 0 60 120 0 0 0
                 (push_bits (Push (Push (New 0) 60 0) 120 0) 179 0 ++ [true])
                 [] false None) = None
  /\ it_finished
       (snd (Next (mkIter 0 60 120 0 0 0
                          (push_bits (Push (Push (New 0) 60 0) 120 0) 179 0
                             ++ [true])
                          [] false None))) = false.
Proof.
  split; [reflexivity|].
  apply (record_never_ends_stream
           (Push (Push (New 0) 60 0) 120 0)
           (mkIter 0 60 120 0 0 0
                   (push_bits (Push (Push (New 0) 60 0) 120 0) 179 0 ++ [true])
                   [] false None)
           179 0 [true]); reflexivity.
Defined.

(** ** The window of the encoder *)

Lemma window_inv_Push (s : Series) (t v : Z) :
  window_inv s -> u64 v -> window_inv (Push s t v).
Proof.
  intros [Hv Hw] Hu. unfold window_inv.
  destruct (Push_fields s t v) as (_ & _ & -> & _ & _ & -> & ->).
  split; [exact Hu|].
  destruct (s_t s =? 0); [exact Hw|].
  pose proof (lxor_u64 v (s_val s) Hu Hv) as Hx.
  unfold write_xor.
  destruct (Z.eqb_spec (Z.lxor v (s_val s)) 0) as [X0|X0]; [exact Hw|].
  destruct (negb _ && _ && _); cbn [fst snd]; [exact Hw|].
  right. apply Clz_Ctz_bounds; unfold u64 in Hx; lia.
Qed.

Lemma window_inv_push_all (S : list (Z * Z)) (s : Series) :
  window_inv s -> Forall sample_ok S -> window_inv (push_all s S).
Proof.
  revert s; induction S as [|x S IH]; intros s Hs HS; [exact Hs|].
  change (push_all s (x :: S)) with (push_all (Push s (fst x) (snd x)) S).
  inversion HS as [|? ? [_ Hv] HS']; subst.
  apply IH; [apply window_inv_Push; assumption | exact HS'].
Qed.

(** X6. The window the encoder keeps is well formed at every point of a
    block: after [New] and any pushes of [float64] values, before and after
    [Finish], the field [leading] is either the "no window yet" mark or a
    count with [leading + trailing <= 63], both counts being non-negative;
    the stored value is a 64-bit pattern. *)
Theorem window_invariant (t0 : Z) (S : list (Z * Z)) :
  Forall sample_ok S ->
  window_inv (push_all (New t0) S)
  /\ window_inv (Finish (push_all (New t0) S)).
Proof.
  intro HS.
  assert (W : window_inv (push_all (New t0) S)).
  { apply window_inv_push_all; [|exact HS].
    unfold window_inv, New. cbn [s_val s_leading].
    split; [unfold u64; lia | now left]. }
  split; [exact W|].
  unfold Finish. destruct (s_finished _); cbn [negb]; exact W.
Qed.

Lemma window_invariant_witness :
  Forall sample_ok [(10, 4607182418800017408); (20, 4609434218613702656)]
  /\ window_inv (push_all (New 0) [(10, 4607182418800017408);
                                   (20, 4609434218613702656)]).
Proof.
  assert (HS : Forall sample_ok
                 [(10, 4607182418800017408); (20, 4609434218613702656)])
    by (repeat constructor; unfold u32, u64; simpl; lia).
  split; [exact HS|]. exact (proj1 (window_invariant 0 _ HS)).
Defined.

(** ** The size of a record *)

Lemma length_dod_bits (dod : Z) :
  (1 <= length (dod_bits dod) <= 36)%nat
  /\ (length (dod_bits dod) = 1%nat <-> dod = 0).
Proof.
  rewrite dod_bits_cases.
  destruct (Z.eqb_spec dod 0) as [E|E]; [simpl; split; [lia | tauto]|].
  repeat match goal with |- context [if ?c then _ else _] => destruct c end;
    rewrite length_app, length_low_bits; simpl length;
    (split; [lia | split; [lia | tauto]]).
Qed.

Lemma length_xor_bits (l tr x : Z) :
  u64 x ->
  l = no_window \/ (0 <= l /\ 0 <= tr /\ l + tr <= 63) ->
  (1 <= length (xor_bits l tr x) <= 77)%nat
  /\ (length (xor_bits l tr x) = 1%nat <-> x = 0).
Proof.
  intros Hx Hw. rewrite xor_bits_cases.
  destruct (Z.eqb_spec x 0) as [E|E]; [simpl; split; [lia | tauto]|].
  assert (Xpos : 0 < x) by (unfold u64 in Hx; lia).
  assert (X64 : x < 2 ^ 64) by apply Hx.
  pose proof (Clz_Ctz_bounds x Xpos X64) as B.
  destruct (negb (l =? no_window) && (l <=? Clz x) && (tr <=? Ctz x)) eqn:R.
  - assert (N : l <> no_window) by lia.
    destruct Hw as [Hw|Hw]; [contradiction|].
    assert (E1 : int64 (64 - int64 l - int64 tr) = 64 - l - tr) by wrap_arith.
    rewrite E1, length_app, length_low_bits. simpl length.
    split; [lia | split; [lia | tauto]].
  - assert (E1 : int64 (wrap64 (64 - Clz x - Ctz x)) = 64 - Clz x - Ctz x)
      by wrap_arith.
    rewrite E1, !length_app, !length_low_bits. simpl length.
    split; [lia | split; [lia | tauto]].
Qed.

(** X7. What a [Push] costs. On an encoder state with a well-formed
    window, a first-point record is 78 bits; any other record is at least 2
    and at most 113 bits (4 + 32 for the timestamp, 2 + 5 + 6 + 64 for the
    value), and it is 2 bits, both zero, exactly when the delta repeats
    ([dod = 0]) and the value is the stored one. *)
Theorem record_size (s : Series) (t v : Z) :
  window_inv s -> u64 v ->
  (s_t s = 0 -> length (push_bits s t v) = 78%nat)
  /\ (s_t s <> 0 ->
      (2 <= length (push_bits s t v) <= 113)%nat
      /\ (length (push_bits s t v) = 2%nat <-> dod_of s t = 0 /\ v = s_val s)
      /\ (dod_of s t = 0 -> v = s_val s -> push_bits s t v = [false; false])).
Proof.
  intros [Hv Hw] Hu. rewrite push_bits_cases.
  destruct (Z.eqb_spec (s_t s) 0) as [Z0|Z0]; split; try contradiction.
  - intros _. rewrite length_app, !length_low_bits. reflexivity.
  - intros _. fold (dod_of s t).
    pose proof (length_dod_bits (dod_of s t)) as [D1 D2].
    pose proof (length_xor_bits (s_leading s) (s_trailing s)
                  (Z.lxor v (s_val s)) (lxor_u64 v (s_val s) Hu Hv) Hw)
      as [X1 X2].
    pose proof (Z.lxor_eq v (s_val s)) as Xe.
    rewrite length_app. split; [lia|]. split.
    + split.
      * intro L. split; [apply D2; lia | apply Xe, X2; lia].
      * intros [Hd He]. subst v. rewrite Z.lxor_nilpotent in *.
        apply D2 in Hd. rewrite Hd. simpl. lia.
    + intros Hd He. subst v. rewrite Hd, Z.lxor_nilpotent.
      rewrite dod_bits_cases, xor_bits_cases. reflexivity.
Qed.

Lemma record_size_witness :
  window_inv (Push (Push (New 0) 60 0) 120 0) /\ u64 0
  /\ s_t (Push (Push (New 0) 60 0) 120 0) <> 0
  /\ (2 <= length (push_bits (Push (Push (New 0) 60 0) 120 0) 180 0) <= 113)%nat.
Proof.
  assert (W : window_inv (Push (Push (New 0) 60 0) 120 0)).
  { unfold window_inv. split; [unfold u64; simpl; lia | now left]. }
  assert (U : u64 0) by (unfold u64; lia).
  assert (N : s_t (Push (Push (New 0) 60 0) 120 0) <> 0) by discriminate.
  split; [exact W|]. split; [exact U|]. split; [exact N|].
  exact (proj1 (proj2 (record_size _ 180 0 W U) N)).
Defined.

(** ** The reading loop ends *)

Lemma read_n_length (n : nat) (r r' : list bool) (acc x : Z) :
  read_n n acc r = (inr x, r') -> length r = (n + length r')%nat.
Proof.
  revert r acc; induction n as [|k IH]; intros r acc H.
  - injection H as _ <-. reflexivity.
  - destruct r as [|b r]; [discriminate H|].
    cbn [read_n ReadBit] in H. apply IH in H. simpl. lia.
Qed.

Lemma ReadBit_length (r r' : list bool) (b : bool) :
  ReadBit r = (inr b, r') -> length r = S (length r').
Proof.
  destruct r as [|x r]; [discriminate|]. intro H. injection H as _ <-.
  reflexivity.
Qed.

Lemma read_prefix_length (n : nat) (r r' : list bool) (d d' : Z) :
  read_prefix (S n) d r = (inr d', r') -> (length r' < length r)%nat.
Proof.
  revert r d; induction n as [|k IH]; intros r d H.
  - destruct r as [|[] r]; cbn in H; try discriminate H;
      injection H as _ <-; simpl; lia.
  - destruct r as [|b r]; [discriminate H|].
    change (read_prefix (S (S k)) d (b :: r))
      with (if negb b then (inr (Z.shiftl d 1 mod 256), r)
            else read_prefix (S k) (Z.lor (Z.shiftl d 1 mod 256) 1) r) in H.
    destruct b; cbn [negb] in H.
    + apply IH in H. simpl. lia.
    + injection H as _ <-. simpl. lia.
Qed.

Ltac fields :=
  cbv [set_br set_err set_finished set_time set_val set_leading set_trailing
       it_val it_leading it_trailing it_br it_t0 it_tDelta it_t it_b
       it_finished it_err].

Ltac fields_in H :=
  cbv [set_br set_err set_finished set_time set_val set_leading set_trailing
       it_val it_leading it_trailing it_br it_t0 it_tDelta it_t it_b
       it_finished it_err] in H.

Lemma read_value_length (it it' : Iter) :
  read_value it = (true, it') -> (length (it_br it') < length (it_br it))%nat.
Proof.
  destruct it as [t0 tD t v l tr br b fin err].
  unfold read_value, fail. cbn [it_br].
  destruct (ReadBit br) as [[e|b1] r1] eqn:R1; [discriminate|].
  apply ReadBit_length in R1. fields.
  destruct b1; cbn [negb].
  2: { intro H. injection H as <-. fields. lia. }
  destruct (ReadBit r1) as [[e|b2] r2] eqn:R2; [discriminate|].
  apply ReadBit_length in R2.
  destruct b2; cbn [negb].
  - destruct (ReadBits r2 5) as [[e|l5] r3] eqn:R3; [discriminate|].
    apply read_n_length in R3.
    fields.
    destruct (ReadBits r3 6) as [[e|m6] r4] eqn:R4; [discriminate|].
    apply read_n_length in R4.
    fields.
    destruct (ReadBits r4 _) as [[e|bits] r5] eqn:R5; [discriminate|].
    apply read_n_length in R5.
    intro H. injection H as <-. fields. lia.
  - fields.
    destruct (ReadBits r2 _) as [[e|bits] r5] eqn:R5; [discriminate|].
    apply read_n_length in R5.
    intro H. injection H as <-. fields. lia.
Qed.

(** Every sample costs the reader at least two bits. *)
Lemma Next_consumes (it it' : Iter) :
  Next it = (true, it') -> (length (it_br it') + 2 <= length (it_br it))%nat.
Proof.
  destruct it as [t0 tD t v l tr br b fin err].
  unfold Next, advance, fail.
  cbn [it_err it_finished it_t it_br it_t0 it_tDelta].
  destruct (match err with Some _ => true | None => false end || fin);
    [discriminate|].
  destruct (t =? 0).
  - destruct (ReadBits br 14) as [[e|d] r1] eqn:R1; [discriminate|].
    apply read_n_length in R1. fields.
    destruct (ReadBits r1 64) as [[e|x] r2] eqn:R2; [discriminate|].
    apply read_n_length in R2.
    intro H. injection H as <-. fields. lia.
  - destruct (read_prefix 4 0 br) as [[e|d] r1] eqn:R1; [discriminate|].
    apply read_prefix_length in R1. fields.
    destruct (d =? 15).
    + destruct (ReadBits r1 32) as [[e|x] r2] eqn:R2; [discriminate|].
      apply read_n_length in R2. fields.
      destruct (x =? 4294967295); [discriminate|].
      intro H. apply read_value_length in H.
      fields_in H. lia.
    + destruct (negb _).
      * destruct (ReadBits r1 _) as [[e|x] r2] eqn:R2; [discriminate|].
        apply read_n_length in R2. fields.
        intro H. apply read_value_length in H.
        fields_in H. lia.
      * intro H. apply read_value_length in H.
        fields_in H. lia.
Qed.

Lemma Next_false_stays (it it' : Iter) :
  Next it = (false, it') ->
  Next it' = (false, it') /\ (Err it' <> None \/ it_finished it' = true).
Proof.
  intro N. unfold Err.
  assert (L : it_err it' <> None \/ it_finished it' = true).
  { destruct (it_err it) as [e|] eqn:E.
    - rewrite (Next_latched it e E) in N. injection N as <-.
      left. congruence.
    - destruct (it_finished it) eqn:F.
      + unfold Next in N. rewrite E, F in N. injection N as <-. now right.
      + pose proof (Next_outcome it E F) as O. rewrite N in O.
        cbn [fst snd] in O.
        destruct O as [(B & _)|[(_ & Er & _)|(_ & _ & Fi)]];
          [discriminate B | left; congruence | now right]. }
  split; [|exact L]. unfold Next.
  destruct L as [L|L].
  - destruct (it_err it'); [reflexivity | contradiction].
  - rewrite L. now rewrite orb_true_r.
Qed.

(** X8. The reading loop ends on every input, well formed or not: each
    sample that [Next] yields costs the reader at least two bits, so a loop
    over an iterator with [n] bits left yields at most [n / 2] samples, and
    once it is allowed more than [n / 2] calls it has stopped for good --
    [Next] keeps returning false on the iterator it leaves, which has a
    latched error or is finished. *)
Theorem reading_loop_ends (fuel : nat) :
  forall (it itf : Iter) (l : list (Z * Z)),
    collect fuel it = (l, itf) ->
    (2 * length l <= length (it_br it))%nat
    /\ ((length (it_br it) < 2 * fuel)%nat ->
        Next itf = (false, itf)
        /\ (Err itf <> None \/ it_finished itf = true)).
Proof.
  induction fuel as [|k IH]; intros it itf l C.
  - cbn [collect] in C. injection C as <- <-. simpl. split; lia.
  - cbn [collect] in C. destruct (Next it) as [[] it'] eqn:N.
    + destruct (collect k it') as [l' itf'] eqn:C'. injection C as <- <-.
      destruct (IH it' itf' l' C') as [B E].
      pose proof (Next_consumes it it' N) as Q.
      split; [simpl; lia|]. intro F. apply E. lia.
    + injection C as <- <-. split; [simpl; lia|].
      intros _. now apply Next_false_stays with it.
Qed.

Lemma reading_loop_ends_witness :
  collect 3 (mkIter 0 0 0 0 0 0 [true; false; true; true] [] false None)
  = ([], mkIter 0 0 0 0 0 0 [] [] false (Some UnexpectedEnd))
  /\ (length [true; false; true; true] < 2 * 3)%nat
  /\ Next (mkIter 0 0 0 0 0 0 [] [] false (Some UnexpectedEnd))
     = (false, mkIter 0 0 0 0 0 0 [] [] false (Some UnexpectedEnd)).
Proof.
  assert (C : collect 3 (mkIter 0 0 0 0 0 0 [true; false; true; true]
                                [] false None)
              = ([], mkIter 0 0 0 0 0 0 [] [] false (Some UnexpectedEnd)))
    by reflexivity.
  assert (F : (length [true; false; true; true] < 2 * 3)%nat) by (simpl; lia).
  split; [exact C|]. split; [exact F|].
  exact (proj1 (proj2 (reading_loop_ends 3 _ _ _ C) F)).
Defined.

(** ** The layout of a block *)

Lemma Flush_pad (w : BitWriter) (b : bool) :
  pend_ok w ->
  exists k, (k < 8)%nat
            /\ bits_of_bytes (w_out (Flush w b)) = wbits w ++ repeat b k
            /\ w_pend (Flush w b) = [].
Proof.
  intro H. exists ((8 - length (w_pend w) mod 8) mod 8)%nat.
  split; [apply Nat.mod_upper_bound; lia|].
  pose proof (wbits_write_list
                (repeat b ((8 - length (w_pend w) mod 8) mod 8)) w) as E.
  fold (Flush w b) in E. unfold wbits at 1 in E.
  rewrite (Flush_pend w b H), app_nil_r in E. split; [exact E|].
  apply Flush_pend, H.
Qed.

Lemma bits_of_encode (t0 : Z) (S : list (Z * Z)) :
  exists k, (k < 8)%nat
            /\ bits_of_bytes (encode t0 S)
               = low_bits 32 t0 ++ run_bits (New t0) S ++ end_bits
                   ++ repeat false k
            /\ w_pend (s_bw (Finish (push_all (New t0) S))) = [].
Proof.
  destruct (good_New t0) as (_ & _ & _ & Gp & Gf).
  destruct (good_push_all S (New t0) Gp Gf) as [Hp Hf].
  unfold encode, Bytes, Finish. rewrite Hf. cbn [negb s_bw].
  destruct (Flush_pad
              (WriteBit (WriteBits (WriteBits (s_bw (push_all (New t0) S)) 15 4)
                                   4294967295 32) Zero) Zero)
    as (k & Hk & E & P).
  { auto using pend_ok_WriteBit, pend_ok_WriteBits. }
  exists k. split; [exact Hk|]. split; [|exact P].
  rewrite E, wbits_WriteBit, !wbits_WriteBits, wbits_push_all.
  rewrite New_writer. unfold wbits at 1. cbn [w_out w_pend].
  rewrite app_nil_r.
  assert (H : bits_of_bytes (be32 t0) = low_bits 32 t0).
  { pose proof (wbits_WriteBits (NewWriter []) t0 32) as W.
    change (WriteBits (NewWriter []) t0 32) with (s_bw (New t0)) in W.
    rewrite New_writer in W. unfold wbits in W. cbn [w_out w_pend] in W.
    rewrite app_nil_r in W. exact W. }
  rewrite H. unfold end_bits, Zero. now rewrite <- !app_assoc.
Qed.

(** X12. The layout of a finished block. The bytes of [New t0], pushes and
    [Finish], read as bits, are the 32 bits of [t0], the bits of each push
    in order, the 37-bit end-of-stream record (1111, thirty-two ones, a
    zero), and fewer than eight zero bits of padding; no bit is left
    pending in the writer, so the byte count is that bit count over 8. *)
Theorem block_layout (t0 : Z) (S : list (Z * Z)) :
  exists k,
    (k < 8)%nat
    /\ bits_of_bytes (encode t0 S)
       = low_bits 32 t0 ++ run_bits (New t0) S
           ++ ([true; true; true; true] ++ repeat true 32 ++ [false])
           ++ repeat false k
    /\ w_pend (s_bw (Finish (push_all (New t0) S))) = []
    /\ (8 * length (encode t0 S)
        = 32 + length (run_bits (New t0) S) + 37 + k)%nat.
Proof.
  destruct (bits_of_encode t0 S) as (k & Hk & E & P).
  exists k. split; [exact Hk|].
  change ([true; true; true; true] ++ repeat true 32 ++ [false]) with end_bits.
  split; [exact E|]. split; [exact P|].
  rewrite <- length_bits_of_bytes, E, !length_app, length_low_bits,
    repeat_length.
  change (length end_bits) with 37%nat. lia.
Qed.

Lemma NewIterator_of_bits (b : list Z) (t0 : Z) (rest : list bool) :
  u32 t0 -> bits_of_bytes b = low_bits 32 t0 ++ rest ->
  NewIterator b = inr (mkIter t0 0 0 0 0 0 rest b false None).
Proof.
  intros H0 E. unfold NewIterator, NewReader. rewrite E. read_next.
  assert (E0 : wrap32 (t0 mod 2 ^ 32) = t0) by wrap_arith.
  rewrite E0. reflexivity.
Qed.

Lemma decode_encode_tail (t0 : Z) (S : list (Z * Z)) (extra : list Z)
      (fuel : nat) :
  u32 t0 -> Forall sample_ok S -> encodable (New t0) S = true ->
  (length S < fuel)%nat ->
  decode fuel (encode t0 S ++ extra) = Some (S, None).
Proof.
  intros H0 HS E Hf.
  destruct (bits_of_encode t0 S) as (k & _ & B & _).
  unfold decode.
  rewrite (NewIterator_of_bits _ t0
             (run_bits (New t0) S ++ end_bits
                ++ (repeat false k ++ bits_of_bytes extra)) H0)
    by (rewrite bits_of_bytes_app, B, <- !app_assoc; reflexivity).
  edestruct (collect_run S (New t0)) as (itf & C & Ce);
    [apply good_New | | exact HS | exact E | | exact Hf | ].
  3: { rewrite C, Ce. reflexivity. }
  - unfold sync, New. cbn. repeat split. unfold no_window. lia.
  - reflexivity.
Qed.

(** X9. What follows a block is not read: if [S] is [encodable] on the
    fresh encoder, decoding the bytes of the finished block followed by any
    further bytes yields exactly [S] and no error. The iterator stops at
    the end-of-stream record. *)
Theorem bytes_after_block_ignored
        (t0 : Z) (S : list (Z * Z)) (extra : list Z) (fuel : nat) :
  u32 t0 -> Forall sample_ok S -> encodable (New t0) S = true ->
  (length S < fuel)%nat ->
  decode fuel (encode t0 S ++ extra) = Some (S, None).
Proof. apply decode_encode_tail. Qed.

Lemma bytes_after_block_ignored_witness :
  u32 1000 /\ Forall sample_ok [(1060, 5)]
  /\ encodable (New 1000) [(1060, 5)] = true /\ (1 < 2)%nat
  /\ decode 2 (encode 1000 [(1060, 5)] ++ [255; 255; 7])
     = Some ([(1060, 5)], None).
Proof.
  assert (H0 : u32 1000) by (unfold u32; lia).
  assert (HS : Forall sample_ok [(1060, 5)])
    by (repeat constructor; unfold u32, u64; simpl; lia).
  assert (E : encodable (New 1000) [(1060, 5)] = true) by reflexivity.
  assert (Hf : (1 < 2)%nat) by lia.
  split; [exact H0|]. split; [exact HS|]. split; [exact E|].
  split; [exact Hf|].
  exact (bytes_after_block_ignored 1000 _ [255; 255; 7] 2 H0 HS E Hf).
Defined.

(** ** Round trip from conditions on the samples alone *)

Lemma encodable_plain (S : list (Z * Z)) :
  forall s : Series,
    s_t s <> 0 ->
    Forall (fun x => fst x <> 0) S ->
    values_plain (s_val s) (map snd S) = true ->
    encodable s S = true.
Proof.
  induction S as [|[t v] S IH]; intros s Ht HS HV.
  - cbn [encodable]. now apply negb_true_iff, Z.eqb_neq.
  - cbn [encodable fst snd]. cbn [map snd values_plain] in HV.
    apply andb_prop in HV as [HX HV].
    inversion HS as [|? ? Hx HS']; subst. cbn [fst] in Hx.
    destruct (Push_fields s t v) as (_ & Pt & Pv & _).
    apply andb_true_intro. split.
    + unfold fits. destruct (Z.eqb_spec (s_t s) 0); [contradiction|].
      unfold xor_ok. unfold xor_plain in HX.
      apply orb_prop in HX as [HX|HX]; rewrite HX;
        [reflexivity | apply orb_true_r].
    + apply IH; [congruence | exact HS' | now rewrite Pv].
Qed.

(** X10. Round trip, with conditions on the samples alone. If the first
    sample lies less than 2^14 after [t0] (modulo 2^32), no timestamp is
    0, and each value after the first differs from the one before it by
    an XOR that is zero or has fewer than 32 leading zeros and fewer than
    64 significant bits, then decoding the finished block yields exactly
    the samples pushed, with no error. Timestamps may go backwards or wrap
    around 2^32. *)
Theorem round_trip_plain
        (t0 t1 v1 : Z) (S : list (Z * Z)) (fuel : nat) :
  u32 t0 -> Forall sample_ok ((t1, v1) :: S) ->
  wrap32 (t1 - t0) < 2 ^ 14 ->
  Forall (fun x => fst x <> 0) ((t1, v1) :: S) ->
  values_plain v1 (map snd S) = true ->
  (length ((t1, v1) :: S) < fuel)%nat ->
  decode fuel (encode t0 ((t1, v1) :: S)) = Some ((t1, v1) :: S, None).
Proof.
  intros H0 HS H14 HN HV Hf.
  rewrite <- (app_nil_r (encode t0 ((t1, v1) :: S))).
  apply decode_encode_tail; try assumption.
  cbn [encodable fst snd]. apply andb_true_intro. split.
  - unfold fits, New. cbn [s_t s_t0 Z.eqb]. now apply Z.ltb_lt.
  - inversion HN as [|? ? Hx HN']; subst. cbn [fst] in Hx.
    destruct (Push_fields (New t0) t1 v1) as (_ & Pt & Pv & _).
    apply encodable_plain; [congruence | exact HN' | now rewrite Pv].
Qed.

Lemma round_trip_plain_witness :
  u32 4294967290
  /\ Forall sample_ok [(4294967295, 4607182418800017408);
                       (4, 4609434218613702656); (3, 4609434218613702656)]
  /\ wrap32 (4294967295 - 4294967290) < 2 ^ 14
  /\ Forall (fun x : Z * Z => fst x <> 0)
            [(4294967295, 4607182418800017408);
             (4, 4609434218613702656); (3, 4609434218613702656)]
  /\ values_plain 4607182418800017408
                  (map snd [(4, 4609434218613702656);
                            (3, 4609434218613702656)]) = true
  /\ (3 < 4)%nat
  /\ decode 4 (encode 4294967290
                      [(4294967295, 4607182418800017408);
                       (4, 4609434218613702656); (3, 4609434218613702656)])
     = Some ([(4294967295, 4607182418800017408);
              (4, 4609434218613702656); (3, 4609434218613702656)], None).
Proof.
  assert (H0 : u32 4294967290) by (unfold u32; lia).
  assert (HS : Forall sample_ok
                 [(4294967295, 4607182418800017408);
                  (4, 4609434218613702656); (3, 4609434218613702656)])
    by (repeat constructor; unfold u32, u64; simpl; lia).
  assert (H14 : wrap32 (4294967295 - 4294967290) < 2 ^ 14)
    by (vm_compute; reflexivity).
  assert (HN : Forall (fun x : Z * Z => fst x <> 0)
                 [(4294967295, 4607182418800017408);
                  (4, 4609434218613702656); (3, 4609434218613702656)])
    by (repeat constructor; discriminate).
  assert (HV : values_plain 4607182418800017408
                 (map snd [(4, 4609434218613702656);
                           (3, 4609434218613702656)]) = true)
    by (vm_compute; reflexivity).
  assert (Hf : (3 < 4)%nat) by lia.
  split; [exact H0|]. split; [exact HS|]. split; [exact H14|].
  split; [exact HN|]. split; [exact HV|]. split; [exact Hf|].
  exact (round_trip_plain 4294967290 4294967295 4607182418800017408
           [(4, 4609434218613702656); (3, 4609434218613702656)] 4
           H0 HS H14 HN HV Hf).
Defined.

(** ** A first sample far from the anchor *)

Lemma Next_first (it : Iter) (d v : Z) (rest : list bool) :
  it_err it = None -> it_finished it = false -> it_t it = 0 ->
  it_br it = low_bits 14 d ++ low_bits 64 v ++ rest ->
  Next it
  = (true, mkIter (it_t0 it) (wrap32 (d mod 2 ^ 14))
                  (wrap32 (it_t0 it + wrap32 (d mod 2 ^ 14))) (v mod 2 ^ 64)
                  (it_leading it) (it_trailing it) rest (it_b it) false None).
Proof.
  intros He Hf Ht Hbr.
  destruct it as [t0 tD t p l tr br b fin err].
  cbn [it_val it_leading it_trailing it_br it_t0 it_tDelta it_t it_b
       it_finished it_err] in *.
  subst. unfold Next.
  cbn [it_val it_leading it_trailing it_br it_t0 it_tDelta it_t it_b
       it_finished it_err orb Z.eqb].
  read_next. cbn [set_br set_time it_br]. read_next. reflexivity.
Qed.

(** X11. The first sample's distance to the anchor is kept modulo 2^14
    only. For a block of one sample [(t, v)], decoding yields the value [v]
    and the timestamp [t0 + ((t - t0) mod 2^32) mod 2^14], wrapped to 32
    bits, with no error, whenever that timestamp is not 0: the sample
    itself when it lies less than 2^14 after [t0], a wrong, earlier
    timestamp otherwise. [Push] does not reject such a sample. *)
Theorem first_delta_wraps (t0 t v : Z) (fuel : nat) :
  u32 t0 -> u32 t -> u64 v ->
  wrap32 (t0 + wrap32 (t - t0) mod 2 ^ 14) <> 0 ->
  (1 < fuel)%nat ->
  decode fuel (encode t0 [(t, v)])
  = Some ([(wrap32 (t0 + wrap32 (t - t0) mod 2 ^ 14), v)], None)
  /\ (wrap32 (t - t0) < 2 ^ 14 ->
      wrap32 (t0 + wrap32 (t - t0) mod 2 ^ 14) = t).
Proof.
  intros H0 Ht Hv Hn Hf. split; [|intro H14; wrap_arith].
  destruct (bits_of_encode t0 [(t, v)]) as (k & _ & B & _).
  cbn [run_bits fst snd] in B. rewrite push_bits_cases in B.
  change (s_t (New t0) =? 0) with true in B. cbn iota in B.
  change (s_t0 (New t0)) with t0 in B.
  rewrite app_nil_r, <- !app_assoc in B.
  unfold decode. rewrite (NewIterator_of_bits _ t0 _ H0 B).
  destruct fuel as [|[|n]]; try lia.
  cbn [collect].
  rewrite (Next_first _ (wrap32 (t - t0)) v (end_bits ++ repeat false k))
    by reflexivity.
  cbn [it_t0 it_leading it_trailing it_b].
  assert (Ed : wrap32 (wrap32 (t - t0) mod 2 ^ 14) = wrap32 (t - t0) mod 2 ^ 14)
    by wrap_arith.
  assert (Ev : v mod 2 ^ 64 = v) by (apply Z.mod_small; exact Hv).
  rewrite Ed, Ev.
  edestruct (Next_end
               (mkIter t0 (wrap32 (t - t0) mod 2 ^ 14)
                       (wrap32 (t0 + wrap32 (t - t0) mod 2 ^ 14)) v 0 0
                       (end_bits ++ repeat false k) (encode t0 [(t, v)])
                       false None)
               (repeat false k)) as (it' & N & Ne);
    try reflexivity; [exact Hn|].
  rewrite N. unfold Err. rewrite Ne. reflexivity.
Qed.

Lemma first_delta_wraps_witness :
  u32 0 /\ u32 20000 /\ u64 5
  /\ wrap32 (0 + wrap32 (20000 - 0) mod 2 ^ 14) <> 0 /\ (1 < 2)%nat
  /\ decode 2 (encode 0 [(20000, 5)])
     = Some ([(wrap32 (0 + wrap32 (20000 - 0) mod 2 ^ 14), 5)], None).
Proof.
  assert (H0 : u32 0) by (unfold u32; lia).
  assert (Ht : u32 20000) by (unfold u32; lia).
  assert (Hv : u64 5) by (unfold u64; lia).
  assert (Hn : wrap32 (0 + wrap32 (20000 - 0) mod 2 ^ 14) <> 0)
    by (vm_compute; discriminate).
  assert (Hf : (1 < 2)%nat) by lia.
  split; [exact H0|]. split; [exact Ht|]. split; [exact Hv|].
  split; [exact Hn|]. split; [exact Hf|].
  exact (proj1 (first_delta_wraps 0 20000 5 2 H0 Ht Hv Hn Hf)).
Defined.

(** ** More input does not change what was read *)







(** ** Reading a block that was not finished *)






(** ** Windows that do not fit their fields *)

Lemma lxor_cancel_l (p a b : Z) : Z.lxor p a = Z.lxor p b -> a = b.
Proof.
  intro H.
  rewrite <- (Z.lxor_0_l a), <- (Z.lxor_0_l b), <- (Z.lxor_nilpotent p).
  rewrite !Z.lxor_assoc. now f_equal.
Qed.

Lemma read_value_leading_overflow
      (it : Iter) (l tr x : Z) (rest : list bool) :
  0 < x -> x < 2 ^ 64 -> 32 <= Clz x ->
  negb (l =? no_window) && (l <=? Clz x) && (tr <=? Ctz x) = false ->
  it_br it = xor_bits l tr x ++ rest ->
  read_value it
  = (true, mkIter (it_t0 it) (it_tDelta it) (it_t it)
                  (Z.lxor (it_val it) (x * 2 ^ 32))
                  (Clz x - 32) (Ctz x + 32) rest
                  (it_b it) (it_finished it) (it_err it)).
Proof.
  destruct it as [t0 tD t p dl dtr br b fin err].
  cbn [it_val it_leading it_trailing it_br it_t0 it_tDelta it_t it_b
       it_finished it_err].
  intros Xpos X64 H32 R ->.
  pose proof (Clz_Ctz_bounds x Xpos X64) as B.
  assert (HL : 0 <= Clz x <= Clz x) by lia.
  assert (HT : 0 <= Ctz x <= Ctz x) by lia.
  rewrite xor_bits_cases, R.
  destruct (Z.eqb_spec x 0) as [|_]; [lia|].
  unfold read_value.
  cbn [app ReadBit negb set_br fst snd it_br it_leading it_trailing it_val].
  rewrite <- !app_assoc.
  assert (E0 : wrap64 (64 - Clz x - Ctz x) = 64 - Clz x - Ctz x)
    by wrap_arith.
  assert (E1 : int64 (64 - Clz x - Ctz x) = 64 - Clz x - Ctz x)
    by wrap_arith.
  rewrite E0, E1. read_next.
  cbn [set_br set_leading it_br it_leading it_trailing it_val it_t0
       it_tDelta it_t it_b it_finished it_err].
  read_next.
  cbn [set_br set_leading set_trailing it_br it_leading it_trailing it_val
       it_t0 it_tDelta it_t it_b it_finished it_err].
  assert (E5 : Clz x mod 2 ^ 5 = Clz x - 32).
  { symmetry. apply Z.mod_unique with (q := 1); change (2 ^ 5) with 32; lia. }
  assert (E6 : (64 - Clz x - Ctz x) mod 2 ^ 6 = 64 - Clz x - Ctz x)
    by (apply Z.mod_small; change (2 ^ 6) with 64; lia).
  rewrite E5, E6.
  assert (E7 : wrap64 (64 - (Clz x - 32) - (64 - Clz x - Ctz x)) = Ctz x + 32)
    by wrap_arith.
  rewrite E7.
  assert (E8 : int64 (wrap64 (64 - (Clz x - 32) - (Ctz x + 32)))
               = 64 - Clz x - Ctz x) by wrap_arith.
  rewrite E8, ReadBits_low_bits by lia.
  rewrite window_shr by assumption.
  rewrite window_fits by assumption.
  assert (E9 : shl64 (x / 2 ^ Ctz x) (Ctz x + 32) = x * 2 ^ 32).
  { unfold shl64. destruct (Z.leb_spec 64 (Ctz x + 32)); [lia|].
    rewrite Z.shiftl_mul_pow2, Z.pow_add_r, Z.mul_assoc by lia.
    assert (W : x mod 2 ^ Ctz x = 0) by (apply Ctz_divides; assumption).
    pose proof (Z.div_mod x (2 ^ Ctz x) ltac:(apply Z.pow_nonzero; lia)) as D.
    replace (x / 2 ^ Ctz x * 2 ^ Ctz x) with x by lia.
    apply wrap64_id. unfold u64.
    assert (x < 2 ^ 32).
    { apply Z.lt_le_trans with (2 ^ (Z.log2 x + 1)).
      - apply Z.log2_spec. exact Xpos.
      - apply Z.pow_le_mono_r; [lia|]. rewrite Clz_pos in H32 by assumption.
        lia. }
    change (2 ^ 64) with (2 ^ 32 * 2 ^ 32). nia. }
  rewrite E9. reflexivity.
Qed.

(** X14. A window with 32 or more leading zeros. When [Push] opens a new
    window for an XOR [x] with [Clz x >= 32], the decoder in step with the
    encoder reads the whole record, but with the leading count 32 too
    small and the trailing count 32 too large: it yields the right
    timestamp and the value [previous xor (x * 2^32)], never the value
    pushed, and keeps the window (Clz x - 32, Ctz x + 32) where the encoder
    keeps (Clz x, Ctz x). *)
Theorem leading_field_overflow
        (s : Series) (it : Iter) (t v : Z) (rest : list bool) :
  good s -> sync s it -> u32 t -> u64 v -> s_t s <> 0 ->
  Z.lxor v (s_val s) <> 0 ->
  negb (s_leading s =? no_window)
  && (s_leading s <=? Clz (Z.lxor v (s_val s)))
  && (s_trailing s <=? Ctz (Z.lxor v (s_val s))) = false ->
  32 <= Clz (Z.lxor v (s_val s)) ->
  it_br it = push_bits s t v ++ rest ->
  exists it',
    Next it = (true, it')
    /\ Values it' = (t, Z.lxor (s_val s) (Z.lxor v (s_val s) * 2 ^ 32))
    /\ snd (Values it') <> v
    /\ it_br it' = rest
    /\ it_leading it' = Clz (Z.lxor v (s_val s)) - 32
    /\ it_trailing it' = Ctz (Z.lxor v (s_val s)) + 32
    /\ s_leading (Push s t v) = Clz (Z.lxor v (s_val s))
    /\ s_trailing (Push s t v) = Ctz (Z.lxor v (s_val s)).
Proof.
  intros (Gv & _) (S0 & SD & St & Sv & _ & Sf & Se) Ht Hv Z0 X0 R H32 Hbr.
  pose proof (lxor_u64 v (s_val s) Hv Gv) as Hx.
  assert (Xpos : 0 < Z.lxor v (s_val s)) by (unfold u64 in Hx; lia).
  assert (X64 : Z.lxor v (s_val s) < 2 ^ 64) by apply Hx.
  destruct (Push_fields s t v) as (_ & _ & _ & _ & _ & Pl & Ptr).
  rewrite push_bits_cases in Hbr.
  destruct (Z.eqb_spec (s_t s) 0) as [|_]; [contradiction|].
  rewrite <- app_assoc in Hbr.
  destruct it as [t0 tD ti p dl dtr br b fin err].
  cbn [it_val it_leading it_trailing it_br it_t0 it_tDelta it_t it_b
       it_finished it_err] in *.
  subst t0 tD ti p fin err br.
  erewrite Next_dod;
    [ | reflexivity | reflexivity | exact Z0 | apply int32_range
      | reflexivity ].
  unfold advance.
  cbn [set_br it_tDelta it_t]. rewrite tDelta_back, t_back by exact Ht.
  unfold set_time, set_br.
  cbn [it_val it_leading it_trailing it_br it_t0 it_tDelta it_t it_b
       it_finished it_err].
  rewrite (read_value_leading_overflow
             (mkIter (s_t0 s) (wrap32 (t - s_t s)) t (s_val s) dl dtr
                     (xor_bits (s_leading s) (s_trailing s)
                               (Z.lxor v (s_val s)) ++ rest) b false None)
             (s_leading s) (s_trailing s)
             (Z.lxor v (s_val s)) rest Xpos X64 H32 R eq_refl).
  cbn [it_val it_leading it_trailing it_br it_t0 it_tDelta it_t it_b
       it_finished it_err].
  eexists. split; [reflexivity|]. cbn [Values it_t it_val snd it_br
                                        it_leading it_trailing].
  split; [reflexivity|]. split.
  { intro E. rewrite <- (lxor_back v (s_val s)) in E at 2.
    apply lxor_cancel_l in E. lia. }
  split; [reflexivity|]. split; [reflexivity|]. split; [reflexivity|].
  rewrite Pl, Ptr. unfold write_xor.
  destruct (Z.eqb_spec (Z.lxor v (s_val s)) 0) as [|_]; [contradiction|].
  rewrite R. split; reflexivity.
Qed.

Lemma leading_field_overflow_witness :
  s_t (Push (New 0) 1 0) <> 0
  /\ 32 <= Clz (Z.lxor 2147483648 (s_val (Push (New 0) 1 0)))
  /\ exists it',
      Next (mkIter 0 1 1 0 0 0 (push_bits (Push (New 0) 1 0) 2 2147483648 ++ [])
                   [] false None) = (true, it')
      /\ Values it'
         = (2, Z.lxor (s_val (Push (New 0) 1 0))
                      (Z.lxor 2147483648 (s_val (Push (New 0) 1 0)) * 2 ^ 32)).
Proof.
  assert (G : good (Push (New 0) 1 0)).
  { unfold good. repeat split; try (vm_compute; congruence).
    unfold pend_ok. vm_compute. lia. }
  assert (Sy : sync (Push (New 0) 1 0)
                    (mkIter 0 1 1 0 0 0
                            (push_bits (Push (New 0) 1 0) 2 2147483648 ++ [])
                            [] false None)).
  { unfold sync. do 4 (split; [reflexivity|]).
    split; [|split; reflexivity]. intro H. exfalso.
    change (s_leading (Push (New 0) 1 0)) with (2 ^ 64 - 1) in H. lia. }
  assert (Ht : u32 2) by (unfold u32; lia).
  assert (Hv : u64 2147483648) by (unfold u64; lia).
  assert (Z0 : s_t (Push (New 0) 1 0) <> 0) by discriminate.
  assert (X0 : Z.lxor 2147483648 (s_val (Push (New 0) 1 0)) <> 0)
    by discriminate.
  assert (H32 : 32 <= Clz (Z.lxor 2147483648 (s_val (Push (New 0) 1 0))))
    by (vm_compute; discriminate).
  split; [exact Z0|]. split; [exact H32|].
  destruct (leading_field_overflow (Push (New 0) 1 0) _ 2 2147483648 []
              G Sy Ht Hv Z0 X0 eq_refl H32 eq_refl)
    as (it' & N & V & _).
  exists it'. split; [exact N | exact V].
Defined.

Lemma read_value_sigbits_overflow
      (it : Iter) (l tr x : Z) (rest : list bool) :
  0 < x -> x < 2 ^ 64 -> Clz x = 0 -> Ctz x = 0 ->
  negb (l =? no_window) && (l <=? Clz x) && (tr <=? Ctz x) = false ->
  it_br it = xor_bits l tr x ++ rest ->
  read_value it
  = (true, mkIter (it_t0 it) (it_tDelta it) (it_t it) (it_val it)
                  0 64 (low_bits 64 x ++ rest)
                  (it_b it) (it_finished it) (it_err it)).
Proof.
  destruct it as [t0 tD t p dl dtr br b fin err].
  cbn [it_val it_leading it_trailing it_br it_t0 it_tDelta it_t it_b
       it_finished it_err].
  intros Xpos X64 HC HT R ->.
  rewrite xor_bits_cases, R.
  destruct (Z.eqb_spec x 0) as [|_]; [lia|].
  rewrite HC, HT.
  change (wrap64 (64 - 0 - 0)) with 64. change (int64 64) with 64.
  change (Z.to_nat 64) with 64%nat.
  unfold read_value.
  cbn [app ReadBit negb set_br fst snd it_br it_leading it_trailing it_val].
  rewrite <- !app_assoc. read_next.
  cbn [set_br set_leading it_br it_leading it_trailing it_val it_t0
       it_tDelta it_t it_b it_finished it_err].
  read_next.
  cbn [set_br set_leading set_trailing it_br it_leading it_trailing it_val
       it_t0 it_tDelta it_t it_b it_finished it_err].
  change (0 mod 2 ^ 5) with 0. change (64 mod 2 ^ 6) with 0.
  change (wrap64 (64 - 0 - 0)) with 64.
  change (int64 (wrap64 (64 - 0 - 64))) with 0.
  unfold ReadBits. change (Z.to_nat 0) with 0%nat. cbn [read_n].
  change (shl64 0 64) with 0. rewrite Z.lxor_0_r.
  unfold shr64. change (64 <=? 0) with false. cbn iota.
  rewrite Z.shiftr_0_r. reflexivity.
Qed.

(** X15. A window of 64 significant bits. When [Push] opens a new window
    for an XOR whose highest and lowest bits are both set, the 6-bit field
    holds 0 for the count 64: the decoder in step with the encoder yields
    the right timestamp with the previous value, unchanged, and leaves the
    64 bits of the XOR unread in front of the next record. *)
Theorem sigbits_field_overflow
        (s : Series) (it : Iter) (t v : Z) (rest : list bool) :
  good s -> sync s it -> u32 t -> u64 v -> s_t s <> 0 ->
  Clz (Z.lxor v (s_val s)) = 0 -> Ctz (Z.lxor v (s_val s)) = 0 ->
  negb (s_leading s =? no_window)
  && (s_leading s <=? Clz (Z.lxor v (s_val s)))
  && (s_trailing s <=? Ctz (Z.lxor v (s_val s))) = false ->
  it_br it = push_bits s t v ++ rest ->
  exists it',
    Next it = (true, it')
    /\ Values it' = (t, s_val s) /\ s_val s <> v
    /\ it_br it' = low_bits 64 (Z.lxor v (s_val s)) ++ rest
    /\ it_leading it' = 0 /\ it_trailing it' = 64.
Proof.
  intros (Gv & _) (S0 & SD & St & Sv & _ & Sf & Se) Ht Hv Z0 HC HT R Hbr.
  pose proof (lxor_u64 v (s_val s) Hv Gv) as Hx.
  assert (X0 : Z.lxor v (s_val s) <> 0).
  { intro E. rewrite E in HC. discriminate HC. }
  assert (Xpos : 0 < Z.lxor v (s_val s)) by (unfold u64 in Hx; lia).
  assert (X64 : Z.lxor v (s_val s) < 2 ^ 64) by apply Hx.
  rewrite push_bits_cases in Hbr.
  destruct (Z.eqb_spec (s_t s) 0) as [|_]; [contradiction|].
  rewrite <- app_assoc in Hbr.
  destruct it as [t0 tD ti p dl dtr br b fin err].
  cbn [it_val it_leading it_trailing it_br it_t0 it_tDelta it_t it_b
       it_finished it_err] in *.
  subst t0 tD ti p fin err br.
  erewrite Next_dod;
    [ | reflexivity | reflexivity | exact Z0 | apply int32_range
      | reflexivity ].
  unfold advance.
  cbn [set_br it_tDelta it_t]. rewrite tDelta_back, t_back by exact Ht.
  unfold set_time, set_br.
  cbn [it_val it_leading it_trailing it_br it_t0 it_tDelta it_t it_b
       it_finished it_err].
  rewrite (read_value_sigbits_overflow
             (mkIter (s_t0 s) (wrap32 (t - s_t s)) t (s_val s) dl dtr
                     (xor_bits (s_leading s) (s_trailing s)
                               (Z.lxor v (s_val s)) ++ rest) b false None)
             (s_leading s) (s_trailing s)
             (Z.lxor v (s_val s)) rest Xpos X64 HC HT R eq_refl).
  cbn [it_val it_leading it_trailing it_br it_t0 it_tDelta it_t it_b
       it_finished it_err].
  eexists. split; [reflexivity|].
  cbn [Values it_t it_val it_br it_leading it_trailing].
  split; [reflexivity|]. split.
  { intro E. apply X0. rewrite E. apply Z.lxor_nilpotent. }
  repeat split.
Qed.

Lemma sigbits_field_overflow_witness :
  s_t (Push (New 0) 1 0) <> 0
  /\ Clz (Z.lxor 9223372036854775809 (s_val (Push (New 0) 1 0))) = 0
  /\ Ctz (Z.lxor 9223372036854775809 (s_val (Push (New 0) 1 0))) = 0
  /\ exists it',
      Next (mkIter 0 1 1 0 0 0
                   (push_bits (Push (New 0) 1 0) 2 9223372036854775809 ++ [])
                   [] false None) = (true, it')
      /\ Values it' = (2, s_val (Push (New 0) 1 0)).
Proof.
  assert (G : good (Push (New 0) 1 0)).
  { unfold good. repeat split; try (vm_compute; congruence).
    unfold pend_ok. vm_compute. lia. }
  assert (Sy : sync (Push (New 0) 1 0)
                    (mkIter 0 1 1 0 0 0
                            (push_bits (Push (New 0) 1 0) 2
                                       9223372036854775809 ++ [])
                            [] false None)).
  { unfold sync. do 4 (split; [reflexivity|]).
    split; [|split; reflexivity]. intro H. exfalso.
    change (s_leading (Push (New 0) 1 0)) with (2 ^ 64 - 1) in H. lia. }
  assert (Ht : u32 2) by (unfold u32; lia).
  assert (Hv : u64 9223372036854775809) by (unfold u64; lia).
  assert (Z0 : s_t (Push (New 0) 1 0) <> 0) by discriminate.
  assert (HC : Clz (Z.lxor 9223372036854775809 (s_val (Push (New 0) 1 0))) = 0)
    by reflexivity.
  assert (HT : Ctz (Z.lxor 9223372036854775809 (s_val (Push (New 0) 1 0))) = 0)
    by reflexivity.
  split; [exact Z0|]. split; [exact HC|]. split; [exact HT|].
  destruct (sigbits_field_overflow (Push (New 0) 1 0) _ 2 9223372036854775809
              [] G Sy Ht Hv Z0 HC HT eq_refl eq_refl)
    as (it' & N & V & _).
  exists it'. split; [exact N | exact V].
Defined.
